(** * PageRank: the transition model and its two estimators

    A shallow embedding of [pagerank.py] (functions [transition_model],
    [sample_pagerank] and [iterate_pagerank], with the loader [crawl] and
    the program [main] that use them) and the properties of its
    specification that can be settled on it.

    Modelling choices.
    - The corpus is a Python [dict] from page names to [set]s of page names:
      a [gmap string (gset string)].  Probability distributions and rank
      vectors are [dict]s from page names to numbers: [gmap string Qc].
      Iteration over a dict visits the entries of [map_to_list], iteration
      over a set the entries of [elements].
    - Python floats are idealised as exact rationals ([Qc], the rationals in
      lowest terms, for which equality is Leibniz equality).  Rounding is
      therefore not modelled: a sum that the source gets right up to
      rounding is exactly right here.
    - Exceptions are explicit: a function that can raise returns a
      [result].  The [while True] loop of [iterate_pagerank] is bounded by a
      fuel argument; [None] means that the loop is still running.
    - A subscript [d[k]] that is only read is the total look-up [d !!! k]
      where the key is known to be present ([ranks_after_dom] below); where
      it can be absent the [KeyError] is modelled ([iadd]).
    - The random source is a parameter: the stream of raw draws the
      [random] module would consume.  [random.choice] and [random.choices]
      follow their CPython implementation (version 3.9 and later).
    - The loader [crawl] reads a directory given by its content (file names
      with the text of each file, or with the exception that reading it
      raises) and is modelled for an arbitrary extraction of links in place
      of the regular expression; [main] returns what it prints, line by
      line, and how the run ends. *)

From Stdlib Require Import QArith Qcanon Qcabs.
From stdpp Require Import gmap strings list fin_maps numbers.
From stdpp Require sorting.

Local Open Scope Qc_scope.

(** ** Numbers *)

(** The implicit conversion of a length (an [int]) in a float expression. *)
Definition Qc_of_nat (n : nat) : Qc := Qc_of_Z (Z.of_nat n).

#[global] Instance Qc_inhabited : Inhabited Qc := populate 0.

(** Python's [sum] over a list of numbers: a left fold starting at [0]. *)
Definition sum (l : list Qc) : Qc := foldl Qcplus 0 l.

(** ** Exceptions *)

Inductive exn : Set :=
  | ZeroDivisionError
  | IndexError
  | KeyError
  | ValueError.

Inductive result (A : Type) : Type :=
  | Ok (a : A)
  | Raise (e : exn).
Arguments Ok {A} a.
Arguments Raise {A} e.

#[global] Instance exn_eq_dec : EqDecision exn.
Proof. solve_decision. Defined.

#[global] Instance result_eq_dec `{EqDecision A} : EqDecision (result A).
Proof. solve_decision. Defined.

(** Sequencing: an exception raised by the first computation propagates. *)
#[global] Instance result_bind : MBind result := λ A B k r,
  match r with
  | Ok a => k a
  | Raise e => Raise e
  end.

(** ** Dictionaries *)

(** [list(d.keys())] and [list(d.values())]. *)
Definition keys {V} (d : gmap string V) : list string := (map_to_list d).*1.
Definition values {V} (d : gmap string V) : list V := (map_to_list d).*2.

(** [d.setdefault(k, v)], for its effect on [d]. *)
Definition setdefault {V} (k : string) (v : V) (d : gmap string V) : gmap string V :=
  match d !! k with
  | Some _ => d
  | None => <[k := v]> d
  end.

(** [d[k] += x]: raises [KeyError] when [k] is not a key of [d]. *)
Definition iadd (d : gmap string Qc) (k : string) (x : Qc) : result (gmap string Qc) :=
  match d !! k with
  | Some v => Ok (<[k := v + x]> d)
  | None => Raise KeyError
  end.

(** [sum(d.values())]. *)
Definition sum_values (d : gmap string Qc) : Qc := sum (values d).

(** ** transition_model *)

(** Lines 61-67: [dist] after the links of [page] have been credited. *)
Definition linked_dist (corpus : gmap string (gset string)) (page : string)
    (damping_factor : Qc) : gmap string Qc :=
  match corpus !! page with
  | Some links =>
      if decide (0 < size links)%nat then
        (* Distribute the damping factor equally among linked pages *)
        let linked_prob := damping_factor / Qc_of_nat (size links) in
        foldl (λ dist linked_page, <[linked_page := linked_prob]> dist)
              ∅ (elements links)
      else ∅
  | None => ∅
  end.

Definition transition_model (corpus : gmap string (gset string)) (page : string)
    (damping_factor : Qc) : result (gmap string Qc) :=
  let num_pages := size corpus in
  let dist := linked_dist corpus page damping_factor in
  (* Distribute the remaining probability uniformly to all pages *)
  if decide (num_pages = 0%nat) then Raise ZeroDivisionError else
  let uniform_prob := (1 - damping_factor) / Qc_of_nat num_pages in
  Ok (foldl (λ dist other_page,
               alter (λ v, v + uniform_prob) other_page
                     (setdefault other_page 0 dist))
            dist (keys corpus)).

(** ** The random module *)

(** [random.random()]: 53 random bits scaled to the interval [0,1). *)
Definition random_unit (bits : Z) : Qc :=
  Qc_of_Z (bits `mod` 2 ^ 53) / Qc_of_Z (2 ^ 53).

(** [random.choice(seq)]: an index below [len(seq)] derived from the draw;
    [IndexError] on an empty sequence. *)
Definition choice {A} (seq : list A) (bits : Z) : result A :=
  match seq with
  | [] => Raise IndexError
  | _ =>
      match seq !! Z.to_nat (bits `mod` Z.of_nat (length seq)) with
      | Some x => Ok x
      | None => Raise IndexError
      end
  end.

(** [itertools.accumulate(weights)]: the running sums. *)
Fixpoint accumulate_from (acc : Qc) (weights : list Qc) : list Qc :=
  match weights with
  | [] => []
  | w :: weights => (acc + w) :: accumulate_from (acc + w) weights
  end.
Definition accumulate (weights : list Qc) : list Qc := accumulate_from 0 weights.

(** [bisect.bisect(a, x, 0, hi)] on an ascending list: how many of the first
    [hi] entries are at most [x]. *)
Fixpoint bisect (a : list Qc) (x : Qc) (hi : nat) : nat :=
  match hi, a with
  | S hi, c :: a => if decide (x < c) then 0%nat else S (bisect a x hi)
  | _, _ => 0%nat
  end.

(** [random.choices(population, weights=weights, k=1)[0]]: [ValueError] when
    the weights do not add up to a positive total, otherwise the entry the
    scaled draw falls on. *)
Definition choices {A} (population : list A) (weights : list Qc) (bits : Z) : result A :=
  let n := length population in
  let cum_weights := accumulate weights in
  if decide (length cum_weights = n) then
    match cum_weights !! (length cum_weights - 1)%nat with
    | None => Raise IndexError
    | Some total =>
        if decide (total ≤ 0) then Raise ValueError else
        let hi := (n - 1)%nat in
        match population !! bisect cum_weights (random_unit bits * total) hi with
        | Some x => Ok x
        | None => Raise IndexError
        end
    end
  else Raise ValueError.

(** ** sample_pagerank *)

(** One turn of the loop [for _ in range(n)]: the state is the current page
    and the counters. *)
Definition sample_step (corpus : gmap string (gset string)) (damping_factor : Qc)
    (st : string * gmap string Qc) (bits : Z) : result (string * gmap string Qc) :=
  let '(page, page_rank) := st in
  transition_probs ← transition_model corpus page damping_factor;
  page ← choices (keys transition_probs) (values transition_probs) bits;
  (* Update the PageRank for the chosen page *)
  page_rank ← iadd page_rank page 1;
  Ok (page, page_rank).

(** [n] turns of the loop; turn number [i] consumes the draw [rng i]. *)
Fixpoint sample_loop (corpus : gmap string (gset string)) (damping_factor : Qc)
    (rng : nat → Z) (n i : nat) (st : string * gmap string Qc)
    : result (string * gmap string Qc) :=
  match n with
  | O => Ok st
  | S n =>
      st ← sample_step corpus damping_factor st (rng i);
      sample_loop corpus damping_factor rng n (S i) st
  end.

(** The counters at the end of the walk, before they are normalised.
    [range(n)] is empty for [n <= 0]. *)
Definition sample_counts (corpus : gmap string (gset string)) (damping_factor : Qc)
    (n : Z) (rng : nat → Z) : result (gmap string Qc) :=
  let num_pages := size corpus in
  let page_rank : gmap string Qc := (λ _, 1 / Qc_of_nat num_pages) <$> corpus in
  page ← choice (keys corpus) (rng 0%nat);
  st ← sample_loop corpus damping_factor rng (Z.to_nat n) 1 (page, page_rank);
  Ok st.2.

(** Normalize PageRank values to sum to 1.  The division is carried out once
    per counter, so that a zero total raises nothing when there is no
    counter at all. *)
Definition normalize (page_rank : gmap string Qc) : result (gmap string Qc) :=
  let total_rank := sum_values page_rank in
  if decide (total_rank = 0) then
    if decide (page_rank = ∅) then Ok ∅ else Raise ZeroDivisionError
  else Ok ((λ rank, rank / total_rank) <$> page_rank).

Definition sample_pagerank (corpus : gmap string (gset string)) (damping_factor : Qc)
    (n : Z) (rng : nat → Z) : result (gmap string Qc) :=
  page_rank ← sample_counts corpus damping_factor n rng;
  normalize page_rank.

(** ** iterate_pagerank *)

Definition threshold : Qc := Q2Qc (5 # 10000).

(** The generator summed on line 127: the pages of the corpus, in order,
    that have [page] among their links, each contributing its rank divided
    by the number of its links (which is not 0, [page] being one of them). *)
Definition link_sum (corpus : gmap string (gset string)) (ranks : gmap string Qc)
    (page : string) : Qc :=
  sum ((λ ql : string * gset string, ranks !!! ql.1 / Qc_of_nat (size ql.2))
         <$> filter (λ ql : string * gset string, page ∈ ql.2) (map_to_list corpus)).

(** One turn of the [for page in corpus] loop: the state is [new_ranks] and
    [total_diff]; [ranks] is only read. *)
Definition iterate_page (corpus : gmap string (gset string)) (damping_factor : Qc)
    (ranks : gmap string Qc) (st : gmap string Qc * Qc) (page : string)
    : gmap string Qc * Qc :=
  let '(new_ranks, total_diff) := st in
  let num_pages := size corpus in
  let new_rank := (1 - damping_factor) / Qc_of_nat num_pages in
  let new_rank := new_rank + damping_factor * link_sum corpus ranks page in
  let new_ranks := <[page := new_rank]> new_ranks in
  (new_ranks, total_diff + Qcabs (new_ranks !!! page - ranks !!! page)).

(** One turn of the [while True] loop up to the test: [new_ranks] and
    [total_diff] computed from [ranks]. *)
Definition iterate_pass (corpus : gmap string (gset string)) (damping_factor : Qc)
    (ranks : gmap string Qc) : gmap string Qc * Qc :=
  foldl (iterate_page corpus damping_factor ranks) (∅, 0) (keys corpus).

(** The [while True] loop.  At the [break] the variables [ranks] and
    [new_ranks] hold the two components of the result. *)
Fixpoint iterate_loop (fuel : nat) (corpus : gmap string (gset string))
    (damping_factor : Qc) (ranks : gmap string Qc)
    : option (gmap string Qc * gmap string Qc) :=
  match fuel with
  | O => None
  | S fuel =>
      let '(new_ranks, total_diff) := iterate_pass corpus damping_factor ranks in
      if decide (total_diff < threshold) then Some (ranks, new_ranks)
      else iterate_loop fuel corpus damping_factor new_ranks
  end.

(** The rank vector the loop starts from. *)
Definition initial_ranks (corpus : gmap string (gset string)) : gmap string Qc :=
  let num_pages := size corpus in
  let initial_rank := 1 / Qc_of_nat num_pages in
  (λ _, initial_rank) <$> corpus.

(** [iterate_pagerank]: [None] when [fuel] turns of the loop do not reach the
    [break]; the function returns the variable [ranks]. *)
Definition iterate_pagerank (fuel : nat) (corpus : gmap string (gset string))
    (damping_factor : Qc) : option (result (gmap string Qc)) :=
  let num_pages := size corpus in
  if decide (num_pages = 0%nat) then Some (Raise ZeroDivisionError) else
  st ← iterate_loop fuel corpus damping_factor (initial_ranks corpus) ;
  Some (Ok st.1).

(** ** crawl *)

(** [s.endswith(suffix)]: some tail of [s] is [suffix]. *)
Fixpoint endswith (s suffix : string) : bool :=
  if String.eqb s suffix then true
  else match s with
       | EmptyString => false
       | String _ s => endswith s suffix
       end.

(** The exceptions of the file system: [OSError] (a name that cannot be
    listed or opened: no such directory, a sub-directory where a file is
    expected, a missing permission) and [UnicodeDecodeError] (a file whose
    bytes are not text). *)
Inductive io_error : Type :=
  | OSError
  | UnicodeDecodeError.

(** What the lines 36-37 get from an entry of the directory: its text, or
    the exception that [open] or [f.read()] raises. *)
Inductive file : Type :=
  | Text (contents : string)
  | Broken (e : io_error).

Definition is_text (f : file) : bool :=
  match f with
  | Text _ => true
  | Broken _ => false
  end.

(** The text of an entry, for the entries that have one. *)
Definition file_text (f : file) : string :=
  match f with
  | Text contents => contents
  | Broken _ => ""
  end.

Section crawl.
(** [re.findall(pattern, contents)] with the pattern of line 38: the targets
    of the links of a page, in the order of the text.  The regular expression
    engine is not modelled: [crawl] is modelled for an arbitrary extraction,
    and what is proved of it holds whatever the extraction returns. *)
Context (findall : string → list string).

(** One turn of the first loop.  An entry of the directory is a file name
    with the text read from the file. *)
Definition crawl_read (pages : gmap string (gset string))
    (entry : string * string) : gmap string (gset string) :=
  let '(filename, contents) := entry in
  if negb (endswith filename ".html") then pages else
  let links := findall contents in
  <[filename := list_to_set links ∖ {[filename]}]> pages.

(** One turn of the second loop:
    [pages[filename] = set(link for link in pages[filename] if link in pages)]. *)
Definition crawl_restrict (pages : gmap string (gset string))
    (filename : string) : gmap string (gset string) :=
  <[filename := filter (λ link, link ∈ dom pages) (pages !!! filename)]> pages.

(** [crawl(directory)] on a directory whose files can all be read.  The
    directory is given by its content: the names [os.listdir] yields (in no
    particular order), each with the text that reading the file of that name
    returns.  [crawl_files] below is the same function with the errors of
    [open] and [read]. *)
Definition crawl (directory : gmap string string) : gmap string (gset string) :=
  (* Extract all links from HTML files *)
  let pages := foldl crawl_read ∅ (map_to_list directory) in
  (* Only include links to other pages in the corpus *)
  foldl crawl_restrict pages (keys pages).

(** One turn of the first loop when reading can fail: the exception of
    [open] or [f.read()] ends the loop, and with it [crawl]. *)
Definition crawl_read_file (st : io_error + gmap string (gset string))
    (entry : string * file) : io_error + gmap string (gset string) :=
  match st with
  | inl e => inl e
  | inr pages =>
      let '(filename, f) := entry in
      if negb (endswith filename ".html") then inr pages else
      match f with
      | Broken e => inl e
      | Text contents =>
          let links := findall contents in
          inr (<[filename := list_to_set links ∖ {[filename]}]> pages)
      end
  end.

(** [crawl(directory)] on a directory given by its entries, readable or
    not: the dictionary, or the exception raised while a page is read. *)
Definition crawl_files (files : gmap string file)
    : io_error + gmap string (gset string) :=
  (* Extract all links from HTML files *)
  match foldl crawl_read_file (inr ∅) (map_to_list files) with
  | inl e => inl e
  | inr pages =>
      (* Only include links to other pages in the corpus *)
      inr (foldl crawl_restrict pages (keys pages))
  end.
End crawl.

(** ** main *)

Definition DAMPING : Qc := Q2Qc (85 # 100).
Definition SAMPLES : Z := 10000.

(** What [main] prints: a heading, or the line of a page with its rank.  The
    rendering of the rank with four decimals is not modelled: the line
    carries the number itself. *)
Inductive line : Type :=
  | Heading (text : string)
  | RankLine (page : string) (rank : Qc).

(** How a run of [main] ends. *)
Inductive ending : Type :=
  | Returned                       (* the end of [main] is reached *)
  | SystemExit (message : string)  (* [sys.exit(message)] *)
  | Failed (e : io_error)          (* an exception of [os.listdir], [open] or [f.read()] *)
  | Uncaught (e : exn)             (* an exception raised by an estimator *)
  | Running.                       (* [iterate_pagerank] is still in its loop *)

(** The order of Python on strings: character by character. *)
Definition string_le (a b : string) : Prop := String.leb a b = true.

#[global] Instance string_le_dec : RelDecision string_le.
Proof. intros a b. unfold string_le. apply _. Defined.

(** [sorted(ranks)]: the keys in ascending order. *)
Definition sorted (ranks : gmap string Qc) : list string :=
  sorting.merge_sort string_le (keys ranks).

(** The loop [for page in sorted(ranks): print(...)]. *)
Definition report (ranks : gmap string Qc) : list line :=
  (λ page, RankLine page (ranks !!! page)) <$> sorted ranks.

Section main.
Context (findall : string → list string).

(** [main()], given [sys.argv], the directories [os.listdir] can list (each
    with its entries, readable or not), the random draws, and the fuel of
    the loop of [iterate_pagerank]; the result is what has been printed and
    how the run ends. *)
Definition main (argv : list string) (listdir : string → option (gmap string file))
    (rng : nat → Z) (fuel : nat) : list line * ending :=
  if decide (length argv ≠ 2%nat) then
    ([], SystemExit "Usage: python pagerank.py corpus")
  else
  match listdir (argv !!! 1%nat) with
  | None => ([], Failed OSError)
  | Some directory =>
      match crawl_files findall directory with
      | inl e => ([], Failed e)
      | inr corpus =>
          match sample_pagerank corpus DAMPING SAMPLES rng with
          | Raise e => ([], Uncaught e)
          | Ok ranks =>
              let printed :=
                Heading "PageRank Results from Sampling (n = 10000)" :: report ranks in
              match iterate_pagerank fuel corpus DAMPING with
              | None => (printed, Running)
              | Some (Raise e) => (printed, Uncaught e)
              | Some (Ok ranks) =>
                  (printed ++ Heading "PageRank Results from Iteration" :: report ranks,
                   Returned)
              end
          end
      end
  end.
End main.

(** ** Examples *)

Definition one_sink : gmap string (gset string) := {[ "A" := ∅ ]}.
Definition two_cycle : gmap string (gset string) :=
  <["A" := {["B"]}]> {[ "B" := {["A"]} ]}.
Definition chain3 : gmap string (gset string) :=
  <["A" := {["B"; "C"]}]> (<["B" := {["C"]}]> {[ "C" := ∅ ]}).

(** A cycle of three pages. *)
Definition cycle3 : gmap string (gset string) :=
  <["A" := {["B"]}]> (<["B" := {["A"; "C"]}]> {[ "C" := {["A"]} ]}).

(** The ranks [iterate_pagerank] computes for the three-page graph of the
    specification with damping factor 0.85. *)
Definition chain3_ranks : gmap string Qc :=
  <["A" := Q2Qc (1 # 20)]>
    (<["B" := Q2Qc (57 # 800)]> {[ "C" := Q2Qc (2109 # 16000) ]}).

(** The heights of the pages of [chain3]. *)
Definition chain3_height (p : string) : nat :=
  if decide (p = "A") then 0 else if decide (p = "B") then 1 else 2.

(** A walk of two steps that visits "C" twice and never "A" or "B". *)
Definition walk_CC : gmap string Qc :=
  <["A" := Q2Qc (1 # 9)]> (<["B" := Q2Qc (1 # 9)]> {[ "C" := Q2Qc (7 # 9) ]}).

(** A graph with a link that leaves the corpus, and the distribution
    [transition_model] computes on it for the page "A" and damping 1/2. *)
Definition leaky : gmap string (gset string) :=
  <["A" := {["B"; "Z"]}]> {[ "B" := ∅ ]}.

Definition leaky_dist : gmap string Qc :=
  <["A" := Q2Qc (1 # 4)]> (<["B" := Q2Qc (1 # 2)]> {[ "Z" := Q2Qc (1 # 4) ]}).

(** The counters of the walk that [walk_CC] normalises. *)
Definition walk_CC_counts : gmap string Qc :=
  <["A" := Q2Qc (1 # 3)]> (<["B" := Q2Qc (1 # 3)]> {[ "C" := Q2Qc (7 # 3) ]}).

(** A stand-in for the extraction of links in the examples: the text of a
    page is read as the list of its words (32 is the space character). *)
Fixpoint words_from (word : string) (text : string) : list string :=
  match text with
  | EmptyString => if String.eqb word "" then [] else [word]
  | String c text =>
      if Ascii.eqb c (Ascii.ascii_of_nat 32) then
        if String.eqb word "" then words_from "" text
        else word :: words_from "" text
      else words_from (word +:+ String c "") text
  end.
Definition words (text : string) : list string := words_from "" text.

(** A directory of three pages and a file that is not a page; the first
    page links to itself, to the two others and to a page that is not
    there. *)
Definition site : gmap string string :=
  <["1.html" := "2.html 1.html 3.html 4.html"]>
    (<["2.html" := "3.html"]>
       (<["3.html" := ""]> {[ "notes.txt" := "1.html" ]})).

Definition site_pages : gmap string (gset string) :=
  <["1.html" := {["2.html"; "3.html"]}]>
    (<["2.html" := {["3.html"]}]> {[ "3.html" := ∅ ]}).

(** The directories of the examples: [site] under the name "corpus", a
    directory without pages under the name "empty", and [site] with a
    sub-directory named "4.html" under the name "broken". *)
Definition example_listdir (name : string) : option (gmap string file) :=
  if decide (name = "corpus") then Some (Text <$> site)
  else if decide (name = "empty") then Some {[ "notes.txt" := Text "1.html" ]}
  else if decide (name = "broken") then
    Some (<["4.html" := Broken OSError]> (Text <$> site))
  else None.

(** ** Graphs *)

(** The links followed from [page]: none for a sink and none for a page
    that is not in the corpus. *)
Definition out_links (corpus : gmap string (gset string)) (page : string) : gset string :=
  default ∅ (corpus !! page).

(** A graph as the loader builds it: links stay inside the corpus. *)
Definition valid_graph (corpus : gmap string (gset string)) : Prop :=
  map_Forall (λ _ links, links ⊆ dom corpus) corpus.

#[global] Instance valid_graph_dec corpus : Decision (valid_graph corpus).
Proof. unfold valid_graph. apply _. Defined.

(** ** Auxiliary notions for the sampling estimator *)

(** What holds of the counters all along the walk: one counter per page of
    the corpus, each of them positive. *)
Definition counters_ok (corpus : gmap string (gset string))
    (page_rank : gmap string Qc) : Prop :=
  dom page_rank = dom corpus ∧ map_Forall (λ _ x, 0 < x) page_rank.

(** ** Auxiliary notions for the iterative estimator *)

(** Lines 126-128: the new rank of [page], computed from [ranks]. *)
Definition new_rank (corpus : gmap string (gset string)) (d : Qc)
    (ranks : gmap string Qc) (page : string) : Qc :=
  (1 - d) / Qc_of_nat (size corpus) + d * link_sum corpus ranks page.

(** The variables [new_ranks] and [total_diff] when the [for] loop ends. *)
Definition next_ranks corpus d ranks : gmap string Qc := (iterate_pass corpus d ranks).1.
Definition total_diff corpus d ranks : Qc := (iterate_pass corpus d ranks).2.

(** The rank vector after [k] turns of the [while] loop in which the test
    failed. *)
Definition ranks_after corpus d (k : nat) : gmap string Qc :=
  Nat.iter k (next_ranks corpus d) (initial_ranks corpus).

(** ** The update rule of the specification *)

(** Following the specification: the pages [q] that link to [p] are the
    pages of the corpus whose out-link set contains [p]; the out-degree of
    [q] is the number of its out-links. *)
Definition links_into (corpus : gmap string (gset string)) (p : string) : gset string :=
  filter (λ q, p ∈ out_links corpus q) (dom corpus).

Definition out_degree (corpus : gmap string (gset string)) (q : string) : nat :=
  size (out_links corpus q).

(** Following the specification:
    [new_rank(p) = (1 - damping)/N + damping * Σ over pages q that link to p
    of (rank(q) / out_degree(q))]. *)
Definition spec_new_rank (corpus : gmap string (gset string)) (damping : Qc)
    (rank : gmap string Qc) (p : string) : Qc :=
  (1 - damping) / Qc_of_nat (size corpus)
  + damping * sum ((λ q, rank !!! q / Qc_of_nat (out_degree corpus q))
                     <$> elements (links_into corpus p)).

(** Following the specification: the total absolute change
    [Σ_p |new_rank(p) - rank(p)|] across all pages. *)
Definition spec_total_change (corpus : gmap string (gset string)) (damping : Qc)
    (rank : gmap string Qc) : Qc :=
  sum ((λ p, Qcabs (spec_new_rank corpus damping rank p - rank !!! p))
         <$> keys corpus).

(** * Properties *)

(** ** Arithmetic *)

Lemma Qc_of_nat_0 : Qc_of_nat 0 = 0.
Proof. apply Z2Qc_inj_0. Qed.

Lemma Qc_of_nat_S n : Qc_of_nat (S n) = Qc_of_nat n + 1.
Proof.
  unfold Qc_of_nat. rewrite Nat2Z.inj_succ, <- Z.add_1_r.
  by rewrite Z2Qc_inj_add, Z2Qc_inj_1.
Qed.

Lemma Qc_of_nat_pos n : (0 < n)%nat → 0 < Qc_of_nat n.
Proof.
  intros Hn. unfold Qc_of_nat. rewrite <- Z2Qc_inj_0.
  apply (proj1 (Z2Qc_inj_lt 0 (Z.of_nat n))). lia.
Qed.

Lemma Qc_of_nat_ne_0 n : n ≠ 0%nat → Qc_of_nat n ≠ 0.
Proof.
  intros Hn Heq. assert (0 < Qc_of_nat n) as Hpos.
  { apply Qc_of_nat_pos. lia. }
  rewrite Heq in Hpos. by apply (irreflexivity Qclt 0).
Qed.

Lemma Qcdiv_pos x y : 0 < x → 0 < y → 0 < x / y.
Proof. intros Hx Hy. apply Qcmult_pos_pos; [done | by apply Qcinv_pos]. Qed.

Lemma Qcdiv_nonneg x y : 0 ≤ x → 0 < y → 0 ≤ x / y.
Proof.
  intros Hx Hy. apply Qcmult_nonneg_nonneg; [done|].
  apply Qclt_le_weak. by apply Qcinv_pos.
Qed.

Lemma Qc_0_lt_1 : 0 < 1.
Proof. done. Qed.

(** ** Sums *)

Lemma foldl_Qcplus a l : foldl Qcplus a l = a + sum l.
Proof.
  unfold sum. revert a. induction l as [|x l IH]; intros a; simpl.
  - by rewrite Qcplus_0_r.
  - rewrite (IH (a + x)), (IH (0 + x)). ring.
Qed.

Lemma sum_nil : sum [] = 0.
Proof. done. Qed.

Lemma sum_cons x l : sum (x :: l) = x + sum l.
Proof. unfold sum at 1. simpl. rewrite foldl_Qcplus. ring. Qed.

Lemma sum_app l1 l2 : sum (l1 ++ l2) = sum l1 + sum l2.
Proof.
  induction l1 as [|x l1 IH]; simpl.
  - rewrite sum_nil. ring.
  - rewrite !sum_cons, IH. ring.
Qed.

Lemma sum_Permutation l1 l2 : l1 ≡ₚ l2 → sum l1 = sum l2.
Proof.
  induction 1 as [|x l1 l2 _ IH|x y l|l1 l2 l3 _ IH1 _ IH2].
  - done.
  - by rewrite !sum_cons, IH.
  - rewrite !sum_cons. ring.
  - congruence.
Qed.

#[global] Instance sum_proper : Proper ((≡ₚ) ==> (=)) sum.
Proof. intros l1 l2. apply sum_Permutation. Qed.


Lemma sum_fmap_const {A} (l : list A) c :
  sum ((λ _, c) <$> l) = Qc_of_nat (length l) * c.
Proof.
  induction l as [|x l IH]; csimpl.
  - rewrite sum_nil, Qc_of_nat_0. ring.
  - rewrite sum_cons, IH, Qc_of_nat_S. ring.
Qed.

Lemma sum_fmap_plus {A} (f g : A → Qc) l :
  sum ((λ x, f x + g x) <$> l) = sum (f <$> l) + sum (g <$> l).
Proof.
  induction l as [|x l IH]; csimpl.
  - rewrite !sum_nil. ring.
  - rewrite !sum_cons, IH. ring.
Qed.

Lemma sum_fmap_ext {A} (f g : A → Qc) l :
  (∀ x, x ∈ l → f x = g x) → sum (f <$> l) = sum (g <$> l).
Proof.
  induction l as [|x l IH]; intros Hfg; csimpl; [done|].
  rewrite !sum_cons, Hfg, IH; [done | | by left].
  intros y Hy. apply Hfg. by right.
Qed.

Lemma sum_nonneg l : Forall (λ x, 0 ≤ x) l → 0 ≤ sum l.
Proof.
  induction 1 as [|x l Hx _ IH]; [done|].
  rewrite sum_cons. by apply Qcplus_nonneg_nonneg.
Qed.

Lemma sum_pos l : l ≠ [] → Forall (λ x, 0 < x) l → 0 < sum l.
Proof.
  intros Hne Hall. destruct Hall as [|x l Hx Hl]; [done|].
  rewrite sum_cons. apply Qcplus_pos_nonneg; [done|].
  apply sum_nonneg. revert Hl. apply Forall_impl.
  intros y. apply Qclt_le_weak.
Qed.

(** ** Dictionaries *)

Lemma elem_of_keys {V} (d : gmap string V) k : k ∈ keys d ↔ k ∈ dom d.
Proof.
  unfold keys. rewrite elem_of_dom, list_elem_of_fmap. split.
  - intros [[k' v] [-> Hkv]]. exists v. by apply elem_of_map_to_list.
  - intros [v Hv]. exists (k, v). split; [done|]. by apply elem_of_map_to_list.
Qed.

Lemma NoDup_keys {V} (d : gmap string V) : NoDup (keys d).
Proof. apply NoDup_fst_map_to_list. Qed.

Lemma length_keys {V} (d : gmap string V) : length (keys d) = size d.
Proof. unfold keys. by rewrite length_fmap, length_map_to_list. Qed.

Lemma length_values {V} (d : gmap string V) : length (values d) = size d.
Proof. unfold values. by rewrite length_fmap, length_map_to_list. Qed.

Lemma elem_of_values {V} (d : gmap string V) v : v ∈ values d ↔ ∃ k, d !! k = Some v.
Proof.
  unfold values. rewrite list_elem_of_fmap. split.
  - intros [[k v'] [-> Hkv]]. exists k. by apply elem_of_map_to_list.
  - intros [k Hk]. exists (k, v). split; [done|]. by apply elem_of_map_to_list.
Qed.

Lemma values_fmap {V W} (f : V → W) (d : gmap string V) :
  values (f <$> d) = f <$> values d.
Proof.
  unfold values. rewrite map_to_list_fmap, <- !list_fmap_compose.
  by apply list_fmap_ext; intros ? [??].
Qed.

Lemma sum_values_empty : sum_values ∅ = 0.
Proof. unfold sum_values, values. by rewrite map_to_list_empty. Qed.

Lemma sum_values_insert_fresh (d : gmap string Qc) k x :
  d !! k = None → sum_values (<[k := x]> d) = x + sum_values d.
Proof.
  intros Hk. unfold sum_values, values.
  rewrite (map_to_list_insert d k x Hk). csimpl. apply sum_cons.
Qed.

Lemma sum_values_insert (d : gmap string Qc) k v x :
  d !! k = Some v → sum_values (<[k := x]> d) = sum_values d - v + x.
Proof.
  intros Hk. rewrite <- (insert_delete_eq d k x).
  rewrite <- (insert_delete_id d k v Hk) at 2.
  rewrite !sum_values_insert_fresh by apply lookup_delete_eq. ring.
Qed.


Lemma sum_values_const {V} (d : gmap string V) c :
  sum_values ((λ _, c) <$> d) = Qc_of_nat (size d) * c.
Proof.
  unfold sum_values. by rewrite values_fmap, sum_fmap_const, length_values.
Qed.

Lemma sum_values_pos (d : gmap string Qc) :
  d ≠ ∅ → map_Forall (λ _ x, 0 < x) d → 0 < sum_values d.
Proof.
  intros Hne Hall. apply sum_pos.
  - unfold values. intros Hnil. apply fmap_nil_inv in Hnil.
    by apply map_to_list_empty_iff in Hnil.
  - apply list.Forall_forall. intros x [k Hk]%elem_of_values. by eapply Hall.
Qed.

Lemma lookup_setdefault {V} (d : gmap string V) k v j :
  setdefault k v d !! j =
    if decide (k = j) then Some (default v (d !! k)) else d !! j.
Proof.
  unfold setdefault. destruct (d !! k) as [w|] eqn:Hk; case_decide; subst;
    simplify_map_eq; done.
Qed.

(** ** The transition model *)

Lemma foldl_insert_lookup (c : Qc) (l : list string) (m : gmap string Qc) p :
  foldl (λ dist k, <[k := c]> dist) m l !! p =
    if decide (p ∈ l) then Some c else m !! p.
Proof.
  revert m. induction l as [|x l IH]; intros m; cbn [foldl].
  - done.
  - rewrite IH. destruct (decide (p ∈ l)) as [Hl|Hl].
    + rewrite decide_True; [done | by right].
    + destruct (decide (p = x)) as [->|Hne].
      * rewrite decide_True by left. apply lookup_insert_eq.
      * rewrite decide_False by (rewrite elem_of_cons; tauto).
        by apply lookup_insert_ne.
Qed.

Lemma foldl_uniform_lookup (u : Qc) (l : list string) (m : gmap string Qc) p :
  NoDup l →
  foldl (λ dist k, alter (λ v, v + u) k (setdefault k 0 dist)) m l !! p =
    if decide (p ∈ l) then Some (default 0 (m !! p) + u) else m !! p.
Proof.
  intros Hl. revert m. induction Hl as [|x l Hx _ IH]; intros m; cbn [foldl].
  - done.
  - rewrite IH. destruct (decide (p = x)) as [->|Hne].
    + rewrite (decide_False (P := x ∈ l)) by done.
      rewrite (decide_True (P := x ∈ x :: l)) by (apply elem_of_cons; by left).
      rewrite lookup_alter_eq, lookup_setdefault.
      destruct (decide (x = x)); [reflexivity | congruence].
    + rewrite lookup_alter_ne, lookup_setdefault by done.
      rewrite (decide_False (P := x = p)) by done.
      destruct (decide (p ∈ l)) as [Hp|Hp].
      * rewrite decide_True; [done | by right].
      * rewrite decide_False; [done | rewrite elem_of_cons; tauto].
Qed.

Lemma linked_dist_lookup corpus page d p :
  linked_dist corpus page d !! p =
    if decide (p ∈ out_links corpus page)
    then Some (d / Qc_of_nat (size (out_links corpus page))) else None.
Proof.
  unfold linked_dist, out_links.
  destruct (corpus !! page) as [links|]; simpl.
  - case_decide as Hsize.
    + rewrite foldl_insert_lookup.
      destruct (decide (p ∈ links)) as [Hp|Hp].
      * rewrite decide_True; [done | by apply elem_of_elements].
      * rewrite decide_False; [done | by rewrite elem_of_elements].
    + assert (links = ∅) as -> by (apply leibniz_equiv, size_empty_inv; lia).
      rewrite decide_False by set_solver. done.
  - rewrite decide_False by set_solver. done.
Qed.

Lemma transition_model_Ok corpus page d :
  corpus ≠ ∅ → ∃ dist, transition_model corpus page d = Ok dist.
Proof.
  intros Hne. unfold transition_model. rewrite decide_False; [by eexists|].
  by rewrite map_size_empty_iff.
Qed.

Lemma transition_model_empty page d :
  transition_model ∅ page d = Raise ZeroDivisionError.
Proof. done. Qed.

(** Every entry of the distribution, page by page. *)
Lemma transition_model_lookup corpus page d dist p :
  transition_model corpus page d = Ok dist →
  dist !! p =
    let uniform_prob := (1 - d) / Qc_of_nat (size corpus) in
    let linked_prob := d / Qc_of_nat (size (out_links corpus page)) in
    if decide (p ∈ dom corpus) then
      if decide (p ∈ out_links corpus page)
      then Some (linked_prob + uniform_prob) else Some (0 + uniform_prob)
    else
      if decide (p ∈ out_links corpus page) then Some linked_prob else None.
Proof.
  unfold transition_model. case_decide as HN; [done|].
  intros [= <-]. rewrite foldl_uniform_lookup by apply NoDup_keys.
  rewrite linked_dist_lookup. simpl.
  destruct (decide (p ∈ dom corpus)) as [Hp|Hp].
  - rewrite decide_True by (by apply elem_of_keys).
    by case_decide.
  - rewrite decide_False by (by rewrite elem_of_keys). done.
Qed.

Lemma transition_model_dom corpus page d dist :
  transition_model corpus page d = Ok dist →
  dom dist = dom corpus ∪ out_links corpus page.
Proof.
  intros Hdist. apply set_eq. intros p.
  rewrite elem_of_dom, (transition_model_lookup _ _ _ _ p Hdist). simpl.
  rewrite elem_of_union.
  destruct (decide (p ∈ dom corpus)), (decide (p ∈ out_links corpus page));
    (split; [intros [x Hx]; first [discriminate | tauto]
            | intros; first [by eexists | tauto]]).
Qed.

Lemma out_links_valid corpus page :
  valid_graph corpus → out_links corpus page ⊆ dom corpus.
Proof.
  intros Hvalid. unfold out_links.
  destruct (corpus !! page) as [links|] eqn:Hpage; simpl; [by eapply Hvalid | set_solver].
Qed.

Lemma out_links_dead_end corpus page :
  corpus !! page = None ∨ corpus !! page = Some ∅ → out_links corpus page = ∅.
Proof. unfold out_links. by intros [-> | ->]. Qed.

Lemma Qcdiv_inj_r (x y z : Qc) : z ≠ 0 → x / z = y / z → x = y.
Proof.
  intros Hz Heq.
  assert (x = x / z * z) as -> by (by field).
  assert (y = y / z * z) as -> by (by field).
  by rewrite Heq.
Qed.

(** The distribution returned for a dead end is the constant dictionary
    [(1 - damping_factor) / N]. *)
Lemma transition_model_dead_end_const corpus page d :
  corpus ≠ ∅ → out_links corpus page = ∅ →
  transition_model corpus page d =
    Ok ((λ _, (1 - d) / Qc_of_nat (size corpus)) <$> corpus).
Proof.
  intros Hne Hdead. destruct (transition_model_Ok corpus page d Hne) as [dist Hdist].
  rewrite Hdist. f_equal. apply map_eq. intros p.
  rewrite (transition_model_lookup _ _ _ _ p Hdist), Hdead, lookup_fmap. simpl.
  rewrite (decide_False (P := p ∈ ∅)) by set_solver.
  destruct (decide (p ∈ dom corpus)) as [Hp|Hp].
  - apply elem_of_dom in Hp as [links ->]. simpl. by rewrite Qcplus_0_l.
  - apply not_elem_of_dom in Hp. by rewrite Hp.
Qed.

(** C1 (what the code does instead): for a sink, and for a page that is not in
    the corpus, [transition_model] gives every page of the corpus the
    probability [(1 - damping_factor) / N]; unless the damping factor is 0
    this is not the uniform probability [1 / N] of the claim. *)
Theorem transition_model_dead_end corpus page d p :
  corpus ≠ ∅ →
  corpus !! page = None ∨ corpus !! page = Some ∅ →
  p ∈ dom corpus →
  ∃ dist, transition_model corpus page d = Ok dist
    ∧ dist !! p = Some ((1 - d) / Qc_of_nat (size corpus))
    ∧ (d ≠ 0 → dist !! p ≠ Some (1 / Qc_of_nat (size corpus))).
Proof.
  intros Hne Hdead%out_links_dead_end Hp.
  eexists. split; [by apply transition_model_dead_end_const|].
  apply elem_of_dom in Hp as [links Hp].
  rewrite lookup_fmap, Hp. simpl. split; [done|].
  intros Hd Heq. apply (inj Some) in Heq. apply Hd.
  apply Qcdiv_inj_r in Heq; [|apply Qc_of_nat_ne_0; by rewrite map_size_empty_iff].
  assert (d = 1 - (1 - d)) as -> by ring. rewrite Heq. ring.
Qed.

Lemma transition_model_dead_end_witness :
  ∃ dist, transition_model one_sink "A" (Q2Qc (85 # 100)) = Ok dist
    ∧ dist !! "A" = Some ((1 - Q2Qc (85 # 100)) / Qc_of_nat (size one_sink))
    ∧ (Q2Qc (85 # 100) ≠ 0 →
       dist !! "A" ≠ Some (1 / Qc_of_nat (size one_sink))).
Proof.
  apply (transition_model_dead_end one_sink "A" (Q2Qc (85 # 100)) "A").
  - apply (bool_decide_unpack _). vm_compute. exact I.
  - right. reflexivity.
  - apply (bool_decide_unpack _). vm_compute. exact I.
Defined.

(** C2 (what the code does instead): for a sink, and for a page that is not in
    the corpus, the keys of the distribution are exactly the pages of the
    corpus, but the probabilities add up to [1 - damping_factor], which for a
    damping factor in (0,1) is not 1. *)
Theorem transition_model_dead_end_sum corpus page d :
  corpus ≠ ∅ →
  corpus !! page = None ∨ corpus !! page = Some ∅ →
  0 < d < 1 →
  ∃ dist, transition_model corpus page d = Ok dist
    ∧ dom dist = dom corpus
    ∧ sum_values dist = 1 - d
    ∧ sum_values dist ≠ 1.
Proof.
  intros Hne Hdead%out_links_dead_end [Hd0 Hd1].
  eexists. split; [by apply transition_model_dead_end_const|].
  split; [apply dom_fmap_L|].
  assert (sum_values ((λ _, (1 - d) / Qc_of_nat (size corpus)) <$> corpus) = 1 - d)
    as Hsum.
  { rewrite sum_values_const. field.
    apply Qc_of_nat_ne_0. by rewrite map_size_empty_iff. }
  split; [done|]. rewrite Hsum. intros Heq.
  assert (d = 0) as -> by (assert (d = 1 - (1 - d)) as -> by ring; rewrite Heq; ring).
  by apply (irreflexivity Qclt 0).
Qed.

Lemma transition_model_dead_end_sum_witness :
  ∃ dist, transition_model chain3 "C" (Q2Qc (85 # 100)) = Ok dist
    ∧ dom dist = dom chain3
    ∧ sum_values dist = 1 - Q2Qc (85 # 100)
    ∧ sum_values dist ≠ 1.
Proof.
  apply (transition_model_dead_end_sum chain3 "C" (Q2Qc (85 # 100))).
  - apply (bool_decide_unpack _). vm_compute. exact I.
  - right. apply (bool_decide_unpack _). vm_compute. exact I.
  - split; reflexivity.
Defined.

Lemma out_links_Some corpus page links :
  corpus !! page = Some links → out_links corpus page = links.
Proof. unfold out_links. by intros ->. Qed.

Lemma size_pos_of_non_empty (X : gset string) : X ≠ ∅ → (0 < size X)%nat.
Proof.
  intros HX. destruct (size X) eqn:Hsize; [|lia].
  destruct HX. by apply leibniz_equiv, size_empty_inv.
Qed.

(** C7: for a page with at least one link, a linked page of the corpus gets
    [damping_factor / out_degree + (1 - damping_factor) / N], every other
    page of the corpus gets [(1 - damping_factor) / N], and so (the damping
    factor being non-negative) no page of the corpus gets less than
    [(1 - damping_factor) / N]. *)
Theorem transition_model_linked corpus page links d :
  corpus !! page = Some links → links ≠ ∅ → 0 ≤ d →
  ∃ dist, transition_model corpus page d = Ok dist
    ∧ (∀ p, p ∈ links → p ∈ dom corpus →
         dist !! p = Some (d / Qc_of_nat (size links)
                           + (1 - d) / Qc_of_nat (size corpus)))
    ∧ (∀ p, p ∉ links → p ∈ dom corpus →
         dist !! p = Some ((1 - d) / Qc_of_nat (size corpus)))
    ∧ (∀ p, p ∈ dom corpus →
         ∃ x, dist !! p = Some x ∧ (1 - d) / Qc_of_nat (size corpus) ≤ x).
Proof.
  intros Hpage Hlinks Hd.
  assert (corpus ≠ ∅) as Hne by (intros ->; by rewrite lookup_empty in Hpage).
  destruct (transition_model_Ok corpus page d Hne) as [dist Hdist].
  exists dist. split; [done|].
  pose proof (λ p, transition_model_lookup _ _ _ _ p Hdist) as Hlookup.
  simpl in Hlookup. rewrite (out_links_Some _ _ _ Hpage) in Hlookup.
  assert (0 ≤ d / Qc_of_nat (size links)) as Hprob.
  { apply Qcdiv_nonneg; [done|]. by apply Qc_of_nat_pos, size_pos_of_non_empty. }
  split; [|split].
  - intros p Hp Hdom. by rewrite Hlookup, !decide_True.
  - intros p Hp Hdom.
    by rewrite Hlookup, decide_True, decide_False, Qcplus_0_l.
  - intros p Hdom. rewrite Hlookup, decide_True by done.
    case_decide; eexists; (split; [done|]).
    + rewrite <- (Qcplus_0_l ((1 - d) / _)) at 1. by apply Qcplus_le_mono_r.
    + rewrite Qcplus_0_l. reflexivity.
Qed.

Lemma transition_model_linked_witness :
  ∃ dist, transition_model chain3 "A" (Q2Qc (85 # 100)) = Ok dist
    ∧ (∀ p, p ∈ ({["B"; "C"]} : gset string) → p ∈ dom chain3 →
         dist !! p = Some (Q2Qc (85 # 100) / Qc_of_nat (size ({["B"; "C"]} : gset string))
                           + (1 - Q2Qc (85 # 100)) / Qc_of_nat (size chain3)))
    ∧ (∀ p, p ∉ ({["B"; "C"]} : gset string) → p ∈ dom chain3 →
         dist !! p = Some ((1 - Q2Qc (85 # 100)) / Qc_of_nat (size chain3)))
    ∧ (∀ p, p ∈ dom chain3 →
         ∃ x, dist !! p = Some x
              ∧ (1 - Q2Qc (85 # 100)) / Qc_of_nat (size chain3) ≤ x).
Proof.
  apply (transition_model_linked chain3 "A" {["B"; "C"]} (Q2Qc (85 # 100))).
  - apply (bool_decide_unpack _). vm_compute. exact I.
  - apply (bool_decide_unpack _). vm_compute. exact I.
  - apply (bool_decide_unpack _). vm_compute. exact I.
Defined.

(** ** The random module *)

Lemma keys_empty_iff {V} (d : gmap string V) : keys d = [] ↔ d = ∅.
Proof.
  unfold keys. split.
  - intros Hnil%fmap_nil_inv. by apply map_to_list_empty_iff.
  - intros ->. by rewrite map_to_list_empty.
Qed.

Lemma choice_nil {A} bits : choice (@nil A) bits = Raise IndexError.
Proof. done. Qed.

Lemma choice_Ok {A} (seq : list A) bits :
  seq ≠ [] → ∃ x, choice seq bits = Ok x ∧ x ∈ seq.
Proof.
  intros Hseq. unfold choice.
  assert (Z.to_nat (bits `mod` Z.of_nat (length seq)) < length seq)%nat as Hlt.
  { destruct seq as [|a seq]; [done|].
    pose proof (Z.mod_pos_bound bits (Z.of_nat (length (a :: seq)))) as Hb.
    simpl length in *. lia. }
  apply lookup_lt_is_Some in Hlt as [x Hx]. exists x.
  destruct seq; [done|]. rewrite Hx. split; [done|].
  by eapply list_elem_of_lookup_2.
Qed.

Lemma length_accumulate_from acc weights :
  length (accumulate_from acc weights) = length weights.
Proof.
  revert acc. induction weights as [|w weights IH]; intros acc; simpl; [done|].
  by rewrite IH.
Qed.

Lemma last_accumulate_from acc w weights :
  accumulate_from acc (w :: weights) !! length weights = Some (acc + sum (w :: weights)).
Proof.
  revert acc w. induction weights as [|w' weights IH]; intros acc w.
  - simpl. rewrite sum_cons, sum_nil. f_equal. ring.
  - change (accumulate_from (acc + w) (w' :: weights) !! length weights
            = Some (acc + sum (w :: w' :: weights))).
    rewrite IH, (sum_cons w). f_equal. ring.
Qed.

Lemma bisect_le a x hi : (bisect a x hi ≤ hi)%nat.
Proof.
  revert a. induction hi as [|hi IH]; intros [|c a]; simpl; try lia.
  case_decide; [lia|]. specialize (IH a). lia.
Qed.

Lemma choices_elem_of {A} (population : list A) weights bits x :
  choices population weights bits = Ok x → x ∈ population.
Proof.
  unfold choices. case_decide; [|done].
  destruct (_ !! _) as [total|]; [|done].
  case_decide; [done|].
  destruct (population !! _) as [y|] eqn:Hy; [|done].
  intros [= <-]. by eapply list_elem_of_lookup_2.
Qed.

Lemma choices_Ok {A} (population : list A) weights bits :
  population ≠ [] → length weights = length population → 0 < sum weights →
  ∃ x, choices population weights bits = Ok x.
Proof.
  intros Hpop Hlen Hsum. unfold choices, accumulate.
  rewrite length_accumulate_from, decide_True by done.
  destruct weights as [|w weights]; [by destruct population|].
  replace (length (w :: weights) - 1)%nat with (length weights) by (simpl; lia).
  rewrite last_accumulate_from, Qcplus_0_l.
  rewrite decide_False by (by apply Qclt_not_le).
  destruct (population !! _) as [y|] eqn:Hy; [by eexists|].
  apply lookup_ge_None in Hy.
  pose proof (bisect_le (accumulate_from 0 (w :: weights))
                (random_unit bits * sum (w :: weights))
                (length population - 1)) as Hle.
  destruct population; [done|]. simpl in *. lia.
Qed.

(** ** The sampling estimator *)

Lemma iadd_Ok (d : gmap string Qc) k x d' :
  iadd d k x = Ok d' ↔ ∃ v, d !! k = Some v ∧ d' = <[k := v + x]> d.
Proof.
  unfold iadd. destruct (d !! k) as [v|]; split.
  - intros [= <-]. by exists v.
  - by intros [v' [[= <-] ->]].
  - done.
  - by intros [v' [[=] _]].
Qed.

Lemma counters_ok_initial corpus :
  corpus ≠ ∅ →
  counters_ok corpus ((λ _, 1 / Qc_of_nat (size corpus)) <$> corpus).
Proof.
  intros Hne. split; [apply dom_fmap_L|].
  intros k x [links [<- _]]%lookup_fmap_Some.
  apply Qcdiv_pos; [done|]. apply Qc_of_nat_pos.
  apply map_size_non_empty_iff in Hne. lia.
Qed.

Lemma counters_ok_iadd corpus page_rank k page_rank' :
  counters_ok corpus page_rank → iadd page_rank k 1 = Ok page_rank' →
  counters_ok corpus page_rank'.
Proof.
  intros [Hdom Hpos] [v [Hv ->]]%iadd_Ok. split.
  - rewrite dom_insert_L, <- Hdom.
    apply subseteq_union_1_L, singleton_subseteq_l. by eapply elem_of_dom_2.
  - apply map_Forall_insert_2; [|done].
    apply Qcplus_pos_pos; [by eapply Hpos | done].
Qed.

Lemma sample_step_counters_ok corpus d st bits st' :
  counters_ok corpus st.2 → sample_step corpus d st bits = Ok st' →
  counters_ok corpus st'.2.
Proof.
  destruct st as [page page_rank]. unfold sample_step. simpl.
  intros Hok.
  destruct (transition_model corpus page d) as [dist|]; [|done]. simpl.
  destruct (choices _ _ bits) as [page'|]; [|done]. simpl.
  destruct (iadd page_rank page' 1) as [page_rank'|] eqn:Hiadd; [|done]. simpl.
  intros [= <-]. simpl. by eapply counters_ok_iadd.
Qed.

Lemma sample_loop_counters_ok corpus d rng n i st st' :
  counters_ok corpus st.2 → sample_loop corpus d rng n i st = Ok st' →
  counters_ok corpus st'.2.
Proof.
  revert i st. induction n as [|n IH]; intros i st Hok; simpl.
  - by intros [= <-].
  - destruct (sample_step corpus d st (rng i)) as [st1|] eqn:Hstep; [|done].
    simpl. apply IH. by eapply sample_step_counters_ok.
Qed.

Lemma transition_model_dom_valid corpus page d dist :
  valid_graph corpus → transition_model corpus page d = Ok dist →
  dom dist = dom corpus.
Proof.
  intros Hvalid Hdist.
  rewrite (transition_model_dom _ _ _ _ Hdist), (comm_L (∪)).
  apply subseteq_union_1_L. by apply out_links_valid.
Qed.

Lemma transition_model_pos corpus page d dist :
  valid_graph corpus → 0 ≤ d < 1 → transition_model corpus page d = Ok dist →
  map_Forall (λ _ x, 0 < x) dist.
Proof.
  intros Hvalid [Hd0 Hd1] Hdist p x Hx.
  assert (p ∈ dom corpus) as Hp.
  { rewrite <- (transition_model_dom_valid _ _ _ _ Hvalid Hdist).
    by eapply elem_of_dom_2. }
  assert (corpus ≠ ∅) as Hne by (intros ->; by rewrite dom_empty_L in Hp).
  assert (0 < (1 - d) / Qc_of_nat (size corpus)) as Hu.
  { apply Qcdiv_pos.
    - apply (Qcplus_lt_mono_r _ _ d). by ring_simplify.
    - apply Qc_of_nat_pos. apply map_size_non_empty_iff in Hne. lia. }
  rewrite (transition_model_lookup _ _ _ _ p Hdist) in Hx. simpl in Hx.
  rewrite decide_True in Hx by done.
  destruct (decide (p ∈ out_links corpus page)) as [Hl|Hl]; injection Hx as <-.
  - apply Qcplus_nonneg_pos; [|done]. apply Qcdiv_nonneg; [done|].
    apply Qc_of_nat_pos, size_pos_of_non_empty. intros Hempty.
    rewrite Hempty in Hl. by apply not_elem_of_empty in Hl.
  - by rewrite Qcplus_0_l.
Qed.

Lemma sample_step_Ok corpus d page page_rank bits :
  valid_graph corpus → corpus ≠ ∅ → 0 ≤ d < 1 → counters_ok corpus page_rank →
  ∃ st, sample_step corpus d (page, page_rank) bits = Ok st.
Proof.
  intros Hvalid Hne Hd [Hdom _]. unfold sample_step.
  destruct (transition_model_Ok corpus page d Hne) as [dist Hdist].
  rewrite Hdist. simpl.
  pose proof (transition_model_dom_valid _ _ _ _ Hvalid Hdist) as Hdd.
  assert (dist ≠ ∅) as Hdist_ne.
  { intros ->. rewrite dom_empty_L in Hdd. apply Hne.
    by apply dom_empty_iff_L. }
  destruct (choices_Ok (keys dist) (values dist) bits) as [page' Hpage'].
  - by rewrite keys_empty_iff.
  - by rewrite length_keys, length_values.
  - apply sum_values_pos; [done|]. by eapply transition_model_pos.
  - rewrite Hpage'. simpl.
    apply choices_elem_of, elem_of_keys in Hpage'.
    rewrite Hdd, <- Hdom in Hpage'. apply elem_of_dom in Hpage' as [v Hv].
    unfold iadd. rewrite Hv. simpl. by eexists.
Qed.

Lemma sample_loop_Ok corpus d rng n i st :
  valid_graph corpus → corpus ≠ ∅ → 0 ≤ d < 1 → counters_ok corpus st.2 →
  ∃ st', sample_loop corpus d rng n i st = Ok st'.
Proof.
  intros Hvalid Hne Hd. revert i st.
  induction n as [|n IH]; intros i [page page_rank] Hok; cbn [sample_loop].
  - by eexists.
  - destruct (sample_step_Ok corpus d page page_rank (rng i)) as [st1 Hst1];
      [done..|].
    rewrite Hst1. simpl. apply IH.
    by eapply (sample_step_counters_ok _ _ (page, page_rank)).
Qed.

Lemma sample_counts_inv corpus d n rng counts :
  sample_counts corpus d n rng = Ok counts →
  corpus ≠ ∅ ∧ counters_ok corpus counts.
Proof.
  unfold sample_counts. intros Hcounts.
  destruct (decide (corpus = ∅)) as [->|Hne]; [done|].
  split; [done|].
  destruct (choice (keys corpus) (rng 0%nat)) as [page|]; [|done].
  simpl in Hcounts.
  destruct (sample_loop _ _ _ _ _ _) as [st|] eqn:Hloop; [|done].
  injection Hcounts as <-.
  eapply sample_loop_counters_ok; [|done]. by apply counters_ok_initial.
Qed.

Lemma sample_counts_Ok corpus d n rng :
  valid_graph corpus → corpus ≠ ∅ → 0 ≤ d < 1 →
  ∃ counts, sample_counts corpus d n rng = Ok counts.
Proof.
  intros Hvalid Hne Hd. unfold sample_counts.
  destruct (choice_Ok (keys corpus) (rng 0%nat)) as [page [-> _]];
    [by rewrite keys_empty_iff|].
  simpl.
  edestruct (sample_loop_Ok corpus d rng (Z.to_nat n) 1) as [st ->]; [done..| |].
  - by apply counters_ok_initial.
  - by eexists.
Qed.

Lemma counters_ok_sum_pos corpus counts :
  corpus ≠ ∅ → counters_ok corpus counts → 0 < sum_values counts.
Proof.
  intros Hne [Hdom Hpos]. apply sum_values_pos; [|done].
  intros ->. rewrite dom_empty_L in Hdom. apply Hne. by apply dom_empty_iff_L.
Qed.

Lemma normalize_pos counts :
  0 < sum_values counts →
  normalize counts = Ok ((λ rank, rank / sum_values counts) <$> counts).
Proof.
  intros Hpos. unfold normalize. rewrite decide_False; [done|].
  intros Heq. rewrite Heq in Hpos. by apply (irreflexivity Qclt 0).
Qed.

Lemma sample_pagerank_Ok corpus d n rng :
  valid_graph corpus → corpus ≠ ∅ → 0 ≤ d < 1 →
  ∃ r, sample_pagerank corpus d n rng = Ok r.
Proof.
  intros Hvalid Hne Hd. unfold sample_pagerank.
  destruct (sample_counts_Ok corpus d n rng) as [counts Hcounts]; [done..|].
  rewrite Hcounts. simpl.
  apply sample_counts_inv in Hcounts as [_ Hok].
  rewrite normalize_pos by (by eapply counters_ok_sum_pos). by eexists.
Qed.



(** C10: when [sample_pagerank] returns a rank vector, the total it divided
    the counters by is positive, and every page of the corpus has a positive
    rank, visited or not. *)
Theorem sample_pagerank_positive corpus d n rng r :
  sample_pagerank corpus d n rng = Ok r →
  ∃ counts, sample_counts corpus d n rng = Ok counts
    ∧ 0 < sum_values counts
    ∧ r = (λ rank, rank / sum_values counts) <$> counts
    ∧ ∀ p, p ∈ dom corpus → ∃ x, r !! p = Some x ∧ 0 < x.
Proof.
  unfold sample_pagerank.
  destruct (sample_counts corpus d n rng) as [counts|] eqn:Hcounts; [|done].
  simpl. apply sample_counts_inv in Hcounts as [Hne Hok].
  pose proof (counters_ok_sum_pos _ _ Hne Hok) as Hpos.
  rewrite normalize_pos by done. intros [= <-].
  exists counts. repeat split; [done|].
  intros p Hp. destruct Hok as [Hdom Hall].
  rewrite <- Hdom in Hp. apply elem_of_dom in Hp as [c Hc].
  exists (c / sum_values counts). rewrite lookup_fmap, Hc. split; [done|].
  apply Qcdiv_pos; [by eapply Hall | done].
Qed.

Lemma sample_pagerank_positive_witness :
  ∃ counts,
    sample_counts chain3 (Q2Qc (85 # 100)) 2 (λ i, Z.of_nat i * 977)%Z = Ok counts
    ∧ 0 < sum_values counts
    ∧ walk_CC = (λ rank, rank / sum_values counts) <$> counts
    ∧ ∀ p, p ∈ dom chain3 → ∃ x, walk_CC !! p = Some x ∧ 0 < x.
Proof.
  apply (sample_pagerank_positive chain3 (Q2Qc (85 # 100)) 2
           (λ i, Z.of_nat i * 977)%Z).
  apply (bool_decide_unpack _). vm_compute. exact I.
Defined.

(** C5, the claim at a concrete input: with a sample count of 0 and a
    one-page corpus no error is raised; the call returns the uniform rank
    vector. *)
Lemma sample_pagerank_no_samples_returns :
  (0 < 1)%Z
  ∧ sample_pagerank one_sink (Q2Qc (85 # 100)) 0 (λ _, 0%Z) = Ok {[ "A" := 1 ]}.
Proof.
  split; [done|]. apply (bool_decide_unpack _). vm_compute. exact I.
Qed.

Lemma sample_counts_no_samples corpus d n rng :
  corpus ≠ ∅ → (n < 1)%Z →
  sample_counts corpus d n rng = Ok ((λ _, 1 / Qc_of_nat (size corpus)) <$> corpus).
Proof.
  intros Hne Hn. unfold sample_counts.
  destruct (choice_Ok (keys corpus) (rng 0%nat)) as [page [-> _]];
    [by rewrite keys_empty_iff|].
  replace (Z.to_nat n) with 0%nat by lia. done.
Qed.

(** C5 (amended): on an empty corpus [sample_pagerank] raises the
    [IndexError] of [random.choice] before it computes anything; on a
    non-empty corpus a sample count below 1 raises nothing: no step is
    taken and the uniform rank vector [1 / N] is returned. *)
Theorem sample_pagerank_invalid_input corpus d n rng :
  (corpus = ∅ → sample_pagerank corpus d n rng = Raise IndexError)
  ∧ (corpus ≠ ∅ → (n < 1)%Z →
     sample_pagerank corpus d n rng
       = Ok ((λ _, 1 / Qc_of_nat (size corpus)) <$> corpus)).
Proof.
  split; [by intros ->|].
  intros Hne Hn. unfold sample_pagerank.
  rewrite sample_counts_no_samples by done. simpl.
  assert (Qc_of_nat (size corpus) ≠ 0) as HN.
  { apply Qc_of_nat_ne_0. by rewrite map_size_empty_iff. }
  assert (sum_values ((λ _, 1 / Qc_of_nat (size corpus)) <$> corpus) = 1) as Hsum.
  { rewrite sum_values_const. by field. }
  rewrite normalize_pos by (by rewrite Hsum). rewrite Hsum. f_equal.
  rewrite <- map_fmap_compose. apply map_fmap_ext. intros k links _. simpl.
  by field.
Qed.

Lemma sample_pagerank_invalid_input_witness :
  sample_pagerank ∅ (Q2Qc (85 # 100)) 10000 (λ _, 0%Z) = Raise IndexError
  ∧ sample_pagerank chain3 (Q2Qc (85 # 100)) (-2) (λ _, 0%Z)
    = Ok ((λ _, 1 / Qc_of_nat (size chain3)) <$> chain3).
Proof.
  split.
  - apply (sample_pagerank_invalid_input ∅ (Q2Qc (85 # 100)) 10000 (λ _, 0%Z)).
    reflexivity.
  - apply (sample_pagerank_invalid_input chain3 (Q2Qc (85 # 100)) (-2) (λ _, 0%Z)).
    + apply (bool_decide_unpack _). vm_compute. exact I.
    + reflexivity.
Defined.

(** ** The iterative estimator *)

Lemma foldl_insert_fun_lookup (f : string → Qc) (l : list string)
    (m : gmap string Qc) p :
  foldl (λ new_ranks k, <[k := f k]> new_ranks) m l !! p =
    if decide (p ∈ l) then Some (f p) else m !! p.
Proof.
  revert m. induction l as [|x l IH]; intros m; cbn [foldl]; [done|].
  rewrite IH. destruct (decide (p ∈ l)) as [Hl|Hl].
  - rewrite decide_True; [done | by right].
  - destruct (decide (p = x)) as [->|Hne].
    + rewrite decide_True by left. apply lookup_insert_eq.
    + rewrite decide_False by (rewrite elem_of_cons; tauto).
      by apply lookup_insert_ne.
Qed.

Lemma foldl_iterate_page corpus d ranks l new_ranks diff :
  foldl (iterate_page corpus d ranks) (new_ranks, diff) l =
    (foldl (λ new_ranks p, <[p := new_rank corpus d ranks p]> new_ranks) new_ranks l,
     diff + sum ((λ p, Qcabs (new_rank corpus d ranks p - ranks !!! p)) <$> l)).
Proof.
  revert new_ranks diff. induction l as [|p l IH]; intros new_ranks diff.
  - simpl. by rewrite sum_nil, Qcplus_0_r.
  - cbn [foldl]. unfold iterate_page at 2. rewrite IH. csimpl.
    rewrite lookup_total_insert_eq, sum_cons. unfold new_rank. f_equal. ring.
Qed.

Lemma iterate_pass_eq corpus d ranks :
  iterate_pass corpus d ranks =
    (foldl (λ new_ranks p, <[p := new_rank corpus d ranks p]> new_ranks) ∅ (keys corpus),
     sum ((λ p, Qcabs (new_rank corpus d ranks p - ranks !!! p)) <$> keys corpus)).
Proof. unfold iterate_pass. by rewrite foldl_iterate_page, Qcplus_0_l. Qed.

Lemma next_ranks_lookup corpus d ranks p :
  next_ranks corpus d ranks !! p =
    if decide (p ∈ dom corpus) then Some (new_rank corpus d ranks p) else None.
Proof.
  unfold next_ranks. rewrite iterate_pass_eq. simpl.
  rewrite foldl_insert_fun_lookup.
  destruct (decide (p ∈ dom corpus)) as [Hp|Hp].
  - rewrite decide_True; [done | by apply elem_of_keys].
  - rewrite decide_False; [done | by rewrite elem_of_keys].
Qed.

Lemma next_ranks_dom corpus d ranks : dom (next_ranks corpus d ranks) = dom corpus.
Proof.
  apply set_eq. intros p. rewrite elem_of_dom, next_ranks_lookup.
  destruct (decide (p ∈ dom corpus)) as [Hp|Hp]; split.
  - done.
  - by eexists.
  - by intros [? ?].
  - done.
Qed.

(** Every rank vector of the iteration has a rank for each page of the
    corpus, so the look-ups [ranks[linked_page]] and [ranks[page]] of the
    pass never raise [KeyError]. *)
Lemma ranks_after_dom corpus d k : dom (ranks_after corpus d k) = dom corpus.
Proof.
  destruct k as [|k]; unfold ranks_after.
  - cbn [Nat.iter nat_rect]. unfold initial_ranks. apply dom_fmap_L.
  - rewrite Nat.iter_succ. apply next_ranks_dom.
Qed.

Lemma total_diff_eq corpus d ranks :
  total_diff corpus d ranks =
    sum ((λ p, Qcabs (new_rank corpus d ranks p - ranks !!! p)) <$> keys corpus).
Proof. unfold total_diff. by rewrite iterate_pass_eq. Qed.

Lemma iterate_loop_unfold fuel corpus d ranks :
  iterate_loop (S fuel) corpus d ranks =
    if decide (total_diff corpus d ranks < threshold)
    then Some (ranks, next_ranks corpus d ranks)
    else iterate_loop fuel corpus d (next_ranks corpus d ranks).
Proof.
  unfold total_diff, next_ranks. simpl.
  by destruct (iterate_pass corpus d ranks).
Qed.

(** The loop stops at the first rank vector whose pass changes it by less
    than the threshold, and its variables then hold that vector and the
    result of the pass. *)
Lemma iterate_loop_spec fuel corpus d ranks r nr :
  iterate_loop fuel corpus d ranks = Some (r, nr) ↔
  ∃ k, (k < fuel)%nat
    ∧ r = Nat.iter k (next_ranks corpus d) ranks
    ∧ nr = next_ranks corpus d r
    ∧ total_diff corpus d r < threshold
    ∧ ∀ j, (j < k)%nat →
        ¬ total_diff corpus d (Nat.iter j (next_ranks corpus d) ranks) < threshold.
Proof.
  revert ranks. induction fuel as [|fuel IH]; intros ranks.
  { split; [done | intros (k & Hk & _); lia]. }
  rewrite iterate_loop_unfold. case_decide as Hdiff.
  - split.
    + intros [= <- <-]. exists 0%nat. repeat split; [lia | done | lia].
    + intros (k & _ & -> & -> & _ & Hfirst). destruct k as [|k]; [done|].
      destruct (Hfirst 0%nat); [lia | done].
  - rewrite IH. split.
    + intros (k & Hk & -> & -> & Hstop & Hfirst). exists (S k).
      rewrite Nat.iter_succ_r. repeat split; [lia | done |].
      intros [|j] Hj; [done|]. rewrite Nat.iter_succ_r. apply Hfirst. lia.
    + intros (k & Hk & -> & -> & Hstop & Hfirst). destruct k as [|k]; [done|].
      exists k. rewrite Nat.iter_succ_r in Hstop |- *.
      repeat split; [lia | done |].
      intros j Hj. specialize (Hfirst (S j)). rewrite Nat.iter_succ_r in Hfirst.
      apply Hfirst. lia.
Qed.

Lemma iterate_pagerank_empty fuel d :
  iterate_pagerank fuel ∅ d = Some (Raise ZeroDivisionError).
Proof. done. Qed.

Lemma iterate_pagerank_loop fuel corpus d r :
  iterate_pagerank fuel corpus d = Some (Ok r) ↔
  corpus ≠ ∅ ∧ ∃ nr, iterate_loop fuel corpus d (initial_ranks corpus) = Some (r, nr).
Proof.
  unfold iterate_pagerank. case_decide as HN.
  - apply map_size_empty_iff in HN. split; [done | by intros [? _]].
  - rewrite map_size_empty_iff in HN.
    destruct (iterate_loop _ _ _ _) as [[r' nr']|]; simpl; split.
    + intros [= <-]. split; [done | by eexists].
    + by intros [_ [nr [= <- _]]].
    + done.
    + by intros [_ [nr [=]]].
Qed.

(** C4, the claim at a concrete input: on a single page without links and
    with damping factor 1/10000 the first pass computes the new rank
    9999/10000 from the rank 1; the change is below the threshold, so the
    loop stops and the function returns the rank 1, not the new one. *)
Lemma iterate_pagerank_not_new_ranks :
  iterate_loop 1 one_sink (Q2Qc (1 # 10000)) (initial_ranks one_sink)
    = Some ({[ "A" := 1 ]}, {[ "A" := Q2Qc (9999 # 10000) ]})
  ∧ iterate_pagerank 1 one_sink (Q2Qc (1 # 10000)) = Some (Ok {[ "A" := 1 ]})
  ∧ ({[ "A" := 1 ]} : gmap string Qc) ≠ {[ "A" := Q2Qc (9999 # 10000) ]}.
Proof.
  repeat split; apply (bool_decide_unpack _); vm_compute; exact I.
Qed.

(** C4 (amended): [iterate_pagerank] returns [r] exactly when [r] is the
    first rank vector of the iteration whose pass changes it by less than the
    threshold.  At the test the rank vector has not been replaced yet: the
    function returns the vector the final pass started from, not the one
    that pass computed. *)
Theorem iterate_pagerank_returns_previous fuel corpus d r :
  iterate_pagerank fuel corpus d = Some (Ok r) ↔
  corpus ≠ ∅ ∧
  ∃ k, (k < fuel)%nat
    ∧ r = ranks_after corpus d k
    ∧ total_diff corpus d r < threshold
    ∧ ∀ j, (j < k)%nat → ¬ total_diff corpus d (ranks_after corpus d j) < threshold.
Proof.
  rewrite iterate_pagerank_loop. unfold ranks_after. split.
  - intros [Hne [nr (k & Hk & Hr & _ & Hstop & Hfirst)%iterate_loop_spec]].
    split; [done|]. by exists k.
  - intros [Hne (k & Hk & Hr & Hstop & Hfirst)]. split; [done|].
    exists (next_ranks corpus d r). apply iterate_loop_spec. by exists k.
Qed.

Lemma iterate_pagerank_returns_previous_witness :
  one_sink ≠ ∅ ∧
  ∃ k, (k < 1)%nat
    ∧ {[ "A" := 1 ]} = ranks_after one_sink (Q2Qc (1 # 10000)) k
    ∧ total_diff one_sink (Q2Qc (1 # 10000)) {[ "A" := 1 ]} < threshold
    ∧ ∀ j, (j < k)%nat →
        ¬ total_diff one_sink (Q2Qc (1 # 10000))
            (ranks_after one_sink (Q2Qc (1 # 10000)) j) < threshold.
Proof.
  apply (iterate_pagerank_returns_previous 1 one_sink (Q2Qc (1 # 10000))).
  apply (bool_decide_unpack _). vm_compute. exact I.
Defined.

(** A second instance: on [cycle3] with damping factor 1/2 the loop stops in
    its eighth pass, whose result differs from the vector that is returned. *)

Example iterate_pagerank_cycle3 :
  let r : gmap string Qc :=
    <["A" := Q2Qc (2363 # 6144)]>
      (<["B" := Q2Qc (1103 # 3072)]> {[ "C" := Q2Qc (525 # 2048) ]}) in
  let nr : gmap string Qc :=
    <["A" := Q2Qc (2363 # 6144)]>
      (<["B" := Q2Qc (4411 # 12288)]> {[ "C" := Q2Qc (3151 # 12288) ]}) in
  iterate_loop 8 cycle3 (Q2Qc (1 # 2)) (initial_ranks cycle3) = Some (r, nr)
  ∧ iterate_pagerank 8 cycle3 (Q2Qc (1 # 2)) = Some (Ok r)
  ∧ r ≠ nr.
Proof.
  repeat split; apply (bool_decide_unpack _); vm_compute; exact I.
Qed.

(** The second concrete scenario of the specification's list: on the
    two-page cycle the initial ranks 1/2 are already the fixed point. *)
Example iterate_pagerank_two_cycle :
  iterate_pagerank 1 two_cycle (Q2Qc (85 # 100))
    = Some (Ok (<["A" := Q2Qc (1 # 2)]> {[ "B" := Q2Qc (1 # 2) ]})).
Proof. apply (bool_decide_unpack _). vm_compute. exact I. Qed.

(** *** The update rule *)

Lemma elem_of_linking_entries corpus p (ql : string * gset string) :
  ql ∈ filter (λ ql : string * gset string, p ∈ ql.2) (map_to_list corpus) ↔
  corpus !! ql.1 = Some ql.2 ∧ p ∈ ql.2.
Proof.
  rewrite list_elem_of_filter. destruct ql as [q links]. simpl.
  rewrite elem_of_map_to_list. tauto.
Qed.

Lemma linking_entries_fst corpus p :
  (filter (λ ql : string * gset string, p ∈ ql.2) (map_to_list corpus)).*1
    ≡ₚ elements (links_into corpus p).
Proof.
  apply NoDup_Permutation.
  - eapply sublist_NoDup; [apply (NoDup_fst_map_to_list corpus)|].
    apply fmap_sublist, sublist_filter.
  - apply NoDup_elements.
  - intros q. rewrite list_elem_of_fmap. unfold links_into.
    rewrite elem_of_elements, elem_of_filter, elem_of_dom. split.
    + intros [ql [-> [Hq Hp]%elem_of_linking_entries]].
      rewrite (out_links_Some _ _ _ Hq). eauto.
    + intros [Hp [links Hq]]. rewrite (out_links_Some _ _ _ Hq) in Hp.
      exists (q, links). split; [done|]. by apply elem_of_linking_entries.
Qed.

(** The sum computed on line 127 is the sum of the specification. *)
Lemma link_sum_spec corpus ranks p :
  link_sum corpus ranks p =
    sum ((λ q, ranks !!! q / Qc_of_nat (out_degree corpus q))
           <$> elements (links_into corpus p)).
Proof.
  unfold link_sum. rewrite <- linking_entries_fst, <- list_fmap_compose.
  f_equal. apply list.Forall_fmap_ext, list.Forall_forall.
  intros [q links] [Hq _]%elem_of_linking_entries. simpl in *.
  unfold out_degree. by rewrite (out_links_Some _ _ _ Hq).
Qed.

Lemma link_sum_sink corpus ranks p q x :
  corpus !! q = Some ∅ →
  link_sum corpus (<[q := x]> ranks) p = link_sum corpus ranks p.
Proof.
  intros Hq. unfold link_sum. f_equal.
  apply list.Forall_fmap_ext, list.Forall_forall.
  intros [q' links] [Hq' Hp]%elem_of_linking_entries. simpl in *.
  rewrite lookup_total_insert_ne; [done|].
  intros <-. rewrite Hq in Hq'. injection Hq' as <-.
  by apply not_elem_of_empty in Hp.
Qed.

Lemma next_ranks_spec corpus d ranks p :
  p ∈ dom corpus →
  next_ranks corpus d ranks !! p = Some (spec_new_rank corpus d ranks p).
Proof.
  intros Hp. rewrite next_ranks_lookup, decide_True by done.
  unfold new_rank, spec_new_rank. by rewrite link_sum_spec.
Qed.

Lemma total_diff_spec corpus d ranks :
  total_diff corpus d ranks = spec_total_change corpus d ranks.
Proof.
  rewrite total_diff_eq. unfold spec_total_change. apply sum_fmap_ext.
  intros p _. unfold new_rank, spec_new_rank. by rewrite link_sum_spec.
Qed.

(** A vector with the pages of the corpus as keys and the new ranks of the
    specification as values is the vector the pass computes. *)
Lemma next_ranks_unique corpus d ranks (new_ranks : gmap string Qc) :
  dom new_ranks = dom corpus →
  (∀ p, p ∈ dom corpus → new_ranks !! p = Some (spec_new_rank corpus d ranks p)) →
  new_ranks = next_ranks corpus d ranks.
Proof.
  intros Hdom Hnew. apply map_eq. intros p.
  destruct (decide (p ∈ dom corpus)) as [Hp|Hp].
  - by rewrite Hnew, next_ranks_spec.
  - rewrite next_ranks_lookup, decide_False by done.
    apply not_elem_of_dom. by rewrite Hdom.
Qed.

Lemma spec_new_rank_sink corpus d ranks q x p :
  corpus !! q = Some ∅ →
  spec_new_rank corpus d (<[q := x]> ranks) p = spec_new_rank corpus d ranks p.
Proof.
  intros Hq. unfold spec_new_rank. by rewrite <- !link_sum_spec, link_sum_sink.
Qed.

(** C6: in every iteration of the loop of [iterate_pagerank] the new vector
    has, for each page [p] of the corpus, the rank
    [(1 - damping)/N + damping * Σ rank(q)/out_degree(q)], the sum ranging
    over the pages [q] whose out-link set contains [p] and [rank] being the
    vector the iteration started from; the loop then stops with that
    vector or goes on with the new one.  A page without links is in no such
    sum, and its rank has no influence on the new vector.  Accordingly the
    function returns [r] exactly when [r] ends a chain of vectors that
    starts with the initial ranks, in which each vector is computed from
    the unmodified previous one by this rule. *)
Theorem iterate_pagerank_update_rule corpus d :
  (∀ fuel ranks,
     ∃ new_ranks,
       dom new_ranks = dom corpus
       ∧ (∀ p, p ∈ dom corpus →
            new_ranks !! p = Some (spec_new_rank corpus d ranks p))
       ∧ (∀ q x, corpus !! q = Some ∅ →
            (∀ p, q ∉ links_into corpus p)
            ∧ ∀ p, p ∈ dom corpus →
                new_ranks !! p = Some (spec_new_rank corpus d (<[q := x]> ranks) p))
       ∧ iterate_loop (S fuel) corpus d ranks =
           if decide (spec_total_change corpus d ranks < threshold)
           then Some (ranks, new_ranks)
           else iterate_loop fuel corpus d new_ranks)
  ∧ (∀ fuel r,
       iterate_pagerank fuel corpus d = Some (Ok r) ↔
       corpus ≠ ∅ ∧
       ∃ (k : nat) (v : nat → gmap string Qc),
         (k < fuel)%nat ∧ v 0%nat = initial_ranks corpus ∧ v k = r
         ∧ (∀ j, (j < k)%nat →
              dom (v (S j)) = dom corpus
              ∧ (∀ p, p ∈ dom corpus →
                   v (S j) !! p = Some (spec_new_rank corpus d (v j) p))
              ∧ ¬ spec_total_change corpus d (v j) < threshold)
         ∧ spec_total_change corpus d (v k) < threshold).
Proof.
  split.
  - intros fuel ranks. exists (next_ranks corpus d ranks).
    split; [apply next_ranks_dom|]. split; [by apply next_ranks_spec|]. split.
    + intros q x Hq. split.
      * intros p. unfold links_into.
        rewrite elem_of_filter, (out_links_Some _ _ _ Hq).
        intros [Hin _]. by apply not_elem_of_empty in Hin.
      * intros p Hp. rewrite spec_new_rank_sink by done. by apply next_ranks_spec.
    + by rewrite iterate_loop_unfold, total_diff_spec.
  - intros fuel r. rewrite iterate_pagerank_loop. split.
    + intros [Hne [nr (k & Hk & -> & _ & Hstop & Hfirst)%iterate_loop_spec]].
      split; [done|].
      exists k, (λ j, Nat.iter j (next_ranks corpus d) (initial_ranks corpus)).
      split; [done|]. split; [done|]. split; [done|]. split.
      * intros j Hj. rewrite Nat.iter_succ.
        split; [apply next_ranks_dom|]. split; [by intros p; apply next_ranks_spec|].
        rewrite <- total_diff_spec. by apply Hfirst.
      * by rewrite <- total_diff_spec.
    + intros [Hne (k & v & Hk & Hv0 & <- & Hsteps & Hstop)]. split; [done|].
      assert (∀ j, (j ≤ k)%nat →
                   v j = Nat.iter j (next_ranks corpus d) (initial_ranks corpus))
        as Hv.
      { intros j. induction j as [|j IH]; intros Hj; [done|].
        destruct (Hsteps j) as (Hdom & Hnew & _); [lia|].
        rewrite Nat.iter_succ, <- IH by lia. by apply next_ranks_unique. }
      exists (next_ranks corpus d (v k)). apply iterate_loop_spec.
      exists k. split; [done|]. split; [by apply Hv|]. split; [done|]. split.
      * by rewrite total_diff_spec.
      * intros j Hj. rewrite <- Hv, total_diff_spec by lia.
        by destruct (Hsteps j Hj) as (_ & _ & ?).
Qed.

Lemma iterate_pagerank_update_rule_witness :
  chain3 ≠ ∅ ∧
  ∃ (k : nat) (v : nat → gmap string Qc),
    (k < 4)%nat ∧ v 0%nat = initial_ranks chain3 ∧ v k = chain3_ranks
    ∧ (∀ j, (j < k)%nat →
         dom (v (S j)) = dom chain3
         ∧ (∀ p, p ∈ dom chain3 →
              v (S j) !! p = Some (spec_new_rank chain3 (Q2Qc (85 # 100)) (v j) p))
         ∧ ¬ spec_total_change chain3 (Q2Qc (85 # 100)) (v j) < threshold)
    ∧ spec_total_change chain3 (Q2Qc (85 # 100)) (v k) < threshold.
Proof.
  apply (proj2 (iterate_pagerank_update_rule chain3 (Q2Qc (85 # 100))) 4%nat chain3_ranks).
  apply (bool_decide_unpack _). vm_compute. exact I.
Defined.

(** *** Rank lost at sinks *)

(** C3 (what the code does instead): on the graph [{A: {B, C}, B: {C}, C: {}}],
    a graph whose links stay inside the corpus, and with damping factor 0.85
    the loop stops in its fourth pass; one more pass changes the vector
    returned by less than the threshold, but its ranks add up to
    4049/16000, not to 1. *)
Theorem iterate_pagerank_sink_sum :
  valid_graph chain3
  ∧ iterate_pagerank 4 chain3 (Q2Qc (85 # 100)) = Some (Ok chain3_ranks)
  ∧ total_diff chain3 (Q2Qc (85 # 100)) chain3_ranks < threshold
  ∧ sum_values chain3_ranks = Q2Qc (4049 # 16000)
  ∧ sum_values chain3_ranks ≠ 1.
Proof.
  repeat split; apply (bool_decide_unpack _); vm_compute; exact I.
Qed.

(** *** Damping factor 1 on an acyclic graph *)

Lemma iterate_loop_terminates fuel corpus d ranks k :
  (k < fuel)%nat →
  total_diff corpus d (Nat.iter k (next_ranks corpus d) ranks) < threshold →
  ∃ st, iterate_loop fuel corpus d ranks = Some st.
Proof.
  revert ranks k. induction fuel as [|fuel IH]; intros ranks k Hk Hstop; [lia|].
  rewrite iterate_loop_unfold. case_decide as Hdiff; [by eexists|].
  destruct k as [|k]; [done|].
  rewrite Nat.iter_succ_r in Hstop. apply (IH _ k); [lia | done].
Qed.

Lemma sum_fmap_zero {A} (f : A → Qc) l :
  (∀ x, x ∈ l → f x = 0) → sum (f <$> l) = 0.
Proof.
  intros Hf. rewrite (sum_fmap_ext f (λ _, 0)) by done.
  rewrite sum_fmap_const. ring.
Qed.

Section acyclic.
(** An acyclic graph: every link goes to a page of greater height, and all
    heights are below [bound]. *)
Context (corpus : gmap string (gset string)) (height : string → nat) (bound : nat).
Hypothesis links_ascend :
  map_Forall (λ q links, set_Forall (λ p, (height q < height p)%nat) links) corpus.
Hypothesis height_bound : map_Forall (λ p _, (height p < bound)%nat) corpus.

(** With damping factor 1 a page keeps no rank of its own: after [k]
    passes the pages of height below [k] have rank 0. *)
Lemma ranks_after_low_zero k p :
  p ∈ dom corpus → (height p < k)%nat → ranks_after corpus 1 k !!! p = 0.
Proof using links_ascend.
  revert p. induction k as [|k IH]; intros p Hp Hk; [lia|].
  unfold ranks_after. rewrite Nat.iter_succ. fold (ranks_after corpus 1 k).
  rewrite lookup_total_alt, next_ranks_lookup, decide_True by done. simpl.
  unfold new_rank, link_sum. rewrite sum_fmap_zero.
  - unfold Qcdiv. ring.
  - intros [q links] [Hq Hin]%elem_of_linking_entries. simpl in *.
    rewrite IH.
    + unfold Qcdiv. ring.
    + by eapply elem_of_dom_2.
    + pose proof (links_ascend q links Hq p Hin). simpl in *. lia.
Qed.

Lemma total_diff_after_bound : total_diff corpus 1 (ranks_after corpus 1 bound) = 0.
Proof using links_ascend height_bound.
  rewrite total_diff_eq. apply sum_fmap_zero.
  intros p Hp%elem_of_keys.
  assert (height p < bound)%nat as Hh.
  { apply elem_of_dom in Hp as [links Hp]. by eapply height_bound. }
  pose proof (ranks_after_low_zero (S bound) p Hp ltac:(lia)) as Hnext.
  unfold ranks_after in Hnext. rewrite Nat.iter_succ in Hnext.
  fold (ranks_after corpus 1 bound) in Hnext.
  rewrite lookup_total_alt, next_ranks_lookup, decide_True in Hnext by done.
  simpl in Hnext. rewrite Hnext, ranks_after_low_zero by done.
  by apply Qc_is_canon.
Qed.

(** C9: with damping factor 1, on a non-empty acyclic graph (which has a
    sink) whose heights are below [bound], [iterate_pagerank] reaches its
    [break] within [bound + 1] passes and returns a rank vector. *)
Theorem iterate_pagerank_damping_one :
  corpus ≠ ∅ → ∃ r, iterate_pagerank (S bound) corpus 1 = Some (Ok r).
Proof using links_ascend height_bound.
  intros Hne.
  destruct (iterate_loop_terminates (S bound) corpus 1 (initial_ranks corpus) bound)
    as [[r nr] Hloop]; [lia | |].
  - fold (ranks_after corpus 1 bound). by rewrite total_diff_after_bound.
  - exists r. apply iterate_pagerank_loop. split; [done | by exists nr].
Qed.
End acyclic.

Lemma iterate_pagerank_damping_one_witness :
  ∃ r, iterate_pagerank 4 chain3 1 = Some (Ok r).
Proof.
  apply (iterate_pagerank_damping_one chain3 chain3_height 3).
  - apply (bool_decide_unpack _). vm_compute. exact I.
  - apply (bool_decide_unpack _). vm_compute. exact I.
  - apply (bool_decide_unpack _). vm_compute. exact I.
Defined.

(** ** Where the probabilities do add up to 1

    The sums of the two preceding parts go wrong at pages without links
    only: for a page with links the transition model is a probability
    distribution, and on a graph without sinks the iteration keeps the sum of
    the ranks at 1. *)

Lemma sum_fmap_indicator {A} (P : A → Prop) `{!∀ x, Decision (P x)} (c : Qc) l :
  sum ((λ x, if decide (P x) then c else 0) <$> l)
    = Qc_of_nat (length (filter P l)) * c.
Proof.
  induction l as [|x l IH]; csimpl.
  - rewrite sum_nil, Qc_of_nat_0. ring.
  - rewrite sum_cons, IH, filter_cons. case_decide.
    + cbn [length]. rewrite Qc_of_nat_S. ring.
    + ring.
Qed.

Lemma sum_fmap_scale {A} (f : A → Qc) c l :
  sum ((λ x, c * f x) <$> l) = c * sum (f <$> l).
Proof.
  induction l as [|x l IH]; csimpl.
  - rewrite sum_nil. ring.
  - rewrite !sum_cons, IH. ring.
Qed.

Lemma keys_elements_dom {V} (d : gmap string V) : keys d ≡ₚ elements (dom d).
Proof.
  apply NoDup_Permutation; [apply NoDup_keys | apply NoDup_elements |].
  intros k. by rewrite elem_of_keys, elem_of_elements.
Qed.

Lemma sum_values_keys (d : gmap string Qc) :
  sum_values d = sum ((λ k, d !!! k) <$> keys d).
Proof.
  unfold sum_values, values, keys. rewrite <- list_fmap_compose. f_equal.
  apply list.Forall_fmap_ext, list.Forall_forall.
  intros [k v] Hkv%elem_of_map_to_list. simpl.
  by rewrite (lookup_total_correct _ _ _ Hkv).
Qed.

(** How many entries of a duplicate-free list covering [X] are in [X]. *)
Lemma length_filter_elem_of (X : gset string) (l : list string) :
  NoDup l → (∀ x, x ∈ X → x ∈ l) → length (filter (λ x, x ∈ X) l) = size X.
Proof.
  intros Hl HX. unfold size, set_size. simpl. apply Permutation_length.
  apply NoDup_Permutation; [by apply list.NoDup_filter | apply NoDup_elements |].
  intros x. rewrite list_elem_of_filter, elem_of_elements.
  split; [by intros [? _] | intros Hx; split; [done | by apply HX]].
Qed.

(** For a page with links in a graph whose links stay inside the corpus the
    transition model is a probability distribution. *)
Lemma transition_model_linked_sum corpus page links d dist :
  valid_graph corpus → corpus !! page = Some links → links ≠ ∅ →
  transition_model corpus page d = Ok dist →
  dom dist = dom corpus ∧ sum_values dist = 1.
Proof.
  intros Hvalid Hpage Hlinks Hdist.
  pose proof (transition_model_dom_valid _ _ _ _ Hvalid Hdist) as Hdom.
  split; [done|].
  assert (corpus ≠ ∅) as Hne by (intros ->; by rewrite lookup_empty in Hpage).
  assert (links ⊆ dom corpus) as Hsub by (by eapply Hvalid).
  set (uniform_prob := (1 - d) / Qc_of_nat (size corpus)).
  set (linked_prob := d / Qc_of_nat (size links)).
  rewrite sum_values_keys.
  rewrite (sum_fmap_ext _
    (λ p, (if decide (p ∈ links) then linked_prob else 0) + uniform_prob)).
  - rewrite sum_fmap_plus, sum_fmap_indicator, sum_fmap_const.
    rewrite length_filter_elem_of, length_keys.
    + rewrite <- (size_dom (D := gset string) dist), Hdom, size_dom.
      unfold linked_prob, uniform_prob. field. split.
      * apply Qc_of_nat_ne_0. by rewrite map_size_empty_iff.
      * apply Qc_of_nat_ne_0. pose proof (size_pos_of_non_empty _ Hlinks). lia.
    + apply NoDup_keys.
    + intros p Hp. apply elem_of_keys. rewrite Hdom. by apply Hsub.
  - intros p Hp%elem_of_keys. rewrite Hdom in Hp.
    rewrite lookup_total_alt, (transition_model_lookup _ _ _ _ p Hdist). simpl.
    rewrite (out_links_Some _ _ _ Hpage), decide_True by done.
    by case_decide.
Qed.

(** The double sum of a pass, regrouped by linking page. *)
Lemma sum_link_sums (g : string * gset string → Qc) (pages : list string)
    (entries : list (string * gset string)) :
  sum ((λ p, sum (g <$> filter (λ ql : string * gset string, p ∈ ql.2) entries))
         <$> pages)
  = sum ((λ ql : string * gset string,
            Qc_of_nat (length (filter (λ p, p ∈ ql.2) pages)) * g ql) <$> entries).
Proof.
  induction entries as [|ql entries IH]; csimpl.
  - rewrite sum_nil. by apply sum_fmap_zero.
  - rewrite sum_cons, <- IH, <- sum_fmap_indicator, <- sum_fmap_plus.
    apply sum_fmap_ext. intros p _. rewrite filter_cons. simpl.
    case_decide; csimpl; [by rewrite sum_cons | ring].
Qed.

Section no_sinks.
(** A non-empty graph whose links stay inside the corpus and whose pages all
    have links. *)
Context (corpus : gmap string (gset string)) (d : Qc).
Hypothesis corpus_valid : valid_graph corpus.
Hypothesis corpus_no_sink : map_Forall (λ _ links, links ≠ ∅) corpus.
Hypothesis corpus_ne : corpus ≠ ∅.

Lemma sum_next_ranks ranks :
  dom ranks = dom corpus →
  sum_values (next_ranks corpus d ranks) = (1 - d) + d * sum_values ranks.
Proof using corpus_valid corpus_no_sink corpus_ne.
  intros Hdom. rewrite sum_values_keys.
  rewrite keys_elements_dom, next_ranks_dom, <- keys_elements_dom.
  rewrite (sum_fmap_ext _ (λ p, (1 - d) / Qc_of_nat (size corpus)
                                + d * link_sum corpus ranks p)).
  2:{ intros p Hp%elem_of_keys.
      by rewrite lookup_total_alt, next_ranks_lookup, decide_True. }
  rewrite sum_fmap_plus, sum_fmap_const, sum_fmap_scale, length_keys.
  unfold link_sum. rewrite sum_link_sums.
  rewrite (sum_fmap_ext _ (λ ql, ranks !!! ql.1)).
  2:{ intros [q links] Hq%elem_of_map_to_list. simpl.
      rewrite length_filter_elem_of; [|apply NoDup_keys|].
      - field. apply Qc_of_nat_ne_0.
        pose proof (size_pos_of_non_empty links (corpus_no_sink q links Hq)). lia.
      - intros p Hp. apply elem_of_keys. by apply (corpus_valid q links Hq). }
  replace ((λ ql : string * gset string, ranks !!! ql.1) <$> map_to_list corpus)
    with ((λ q, ranks !!! q) <$> keys corpus)
    by (unfold keys; by rewrite <- list_fmap_compose).
  rewrite keys_elements_dom, <- Hdom, <- keys_elements_dom, <- sum_values_keys.
  field. apply Qc_of_nat_ne_0. by rewrite map_size_empty_iff.
Qed.

Lemma sum_ranks_after k : sum_values (ranks_after corpus d k) = 1.
Proof using corpus_valid corpus_no_sink corpus_ne.
  induction k as [|k IH].
  - unfold ranks_after, initial_ranks. simpl. rewrite sum_values_const.
    field. apply Qc_of_nat_ne_0. by rewrite map_size_empty_iff.
  - unfold ranks_after. rewrite Nat.iter_succ. fold (ranks_after corpus d k).
    rewrite sum_next_ranks by apply ranks_after_dom. rewrite IH. ring.
Qed.

(** X4: in exact arithmetic (ranks as rationals), on a non-empty graph whose
    links stay inside the corpus and whose pages all have links, the ranks
    [iterate_pagerank] returns add up to 1.  The floats of the code reach
    this total up to their rounding errors only. *)
Lemma iterate_pagerank_no_sinks_sum fuel r :
  iterate_pagerank fuel corpus d = Some (Ok r) → sum_values r = 1.
Proof using corpus_valid corpus_no_sink corpus_ne.
  intros [_ [nr (k & _ & -> & _)%iterate_loop_spec]]%iterate_pagerank_loop.
  apply (sum_ranks_after k).
Qed.
End no_sinks.

(** * Further properties of the code *)

(** ** Order on the rationals *)

Lemma Qc_of_nat_le n m : (n ≤ m)%nat → Qc_of_nat n ≤ Qc_of_nat m.
Proof.
  intros Hnm. unfold Qc_of_nat.
  apply (proj1 (Z2Qc_inj_le (Z.of_nat n) (Z.of_nat m))). lia.
Qed.

Lemma Qc_of_nat_nonneg n : 0 ≤ Qc_of_nat n.
Proof. rewrite <- Qc_of_nat_0. apply Qc_of_nat_le. lia. Qed.

Lemma Qcabs_div_nat x n : Qcabs (x / Qc_of_nat n) = Qcabs x / Qc_of_nat n.
Proof.
  unfold Qcdiv. rewrite Qcabs_Qcmult. f_equal.
  destruct n as [|n].
  - rewrite Qc_of_nat_0. by apply Qc_is_canon.
  - apply Qcabs_pos, Qclt_le_weak, Qcinv_pos, Qc_of_nat_pos. lia.
Qed.

(** A share [c / n] of a non-negative quantity, with [c ≤ n], is at most the
    quantity; for [n = 0] the quotient is 0. *)
Lemma Qc_share_le (c n : nat) (a : Qc) :
  (c ≤ n)%nat → 0 ≤ a → Qc_of_nat c * (a / Qc_of_nat n) ≤ a.
Proof.
  intros Hcn Ha. destruct n as [|n].
  - replace c with 0%nat by lia. rewrite Qc_of_nat_0, Qcmult_0_l. done.
  - assert (0 < Qc_of_nat (S n)) as Hn by (apply Qc_of_nat_pos; lia).
    apply (Qcmult_le_mono_pos_r _ _ (Qc_of_nat (S n)) Hn).
    replace (Qc_of_nat c * (a / Qc_of_nat (S n)) * Qc_of_nat (S n))
      with (Qc_of_nat c * a).
    + rewrite (Qcmult_comm a). apply Qcmult_le_mono_nonneg_r; [done|].
      by apply Qc_of_nat_le.
    + field. intros Heq. rewrite Heq in Hn. by apply (irreflexivity Qclt 0).
Qed.

Lemma sum_fmap_le {A} (f g : A → Qc) l :
  (∀ x, x ∈ l → f x ≤ g x) → sum (f <$> l) ≤ sum (g <$> l).
Proof.
  induction l as [|x l IH]; intros Hfg; csimpl; [done|].
  rewrite !sum_cons. apply Qcplus_le_compat.
  - apply Hfg. by left.
  - apply IH. intros y Hy. apply Hfg. by right.
Qed.

Lemma sum_fmap_minus {A} (f g : A → Qc) l :
  sum (f <$> l) - sum (g <$> l) = sum ((λ x, f x - g x) <$> l).
Proof.
  induction l as [|x l IH]; csimpl.
  - rewrite !sum_nil. ring.
  - rewrite !sum_cons, <- IH. ring.
Qed.

Lemma Qcabs_sum_fmap {A} (f : A → Qc) l :
  Qcabs (sum (f <$> l)) ≤ sum ((λ x, Qcabs (f x)) <$> l).
Proof.
  induction l as [|x l IH]; csimpl.
  - rewrite !sum_nil. by rewrite Qcabs_pos.
  - rewrite !sum_cons. etrans; [apply Qcabs_triangle|].
    by apply Qcplus_le_compat.
Qed.

Lemma length_filter_elem_of_le (X : gset string) (l : list string) :
  NoDup l → (length (filter (λ x, x ∈ X) l) ≤ size X)%nat.
Proof.
  intros Hl. unfold size, set_size. simpl. apply submseteq_length.
  apply NoDup_submseteq; [by apply list.NoDup_filter|].
  intros x [Hx _]%list_elem_of_filter. by apply elem_of_elements.
Qed.

(** ** The iteration converges *)

Lemma next_ranks_lookup_total corpus d ranks p :
  p ∈ dom corpus → next_ranks corpus d ranks !!! p = new_rank corpus d ranks p.
Proof.
  intros Hp. by rewrite lookup_total_alt, next_ranks_lookup, decide_True.
Qed.

Lemma link_sum_diff corpus (r r' : gmap string Qc) p :
  link_sum corpus r' p - link_sum corpus r p =
    sum ((λ ql : string * gset string,
            (r' !!! ql.1 - r !!! ql.1) / Qc_of_nat (size ql.2))
           <$> filter (λ ql : string * gset string, p ∈ ql.2) (map_to_list corpus)).
Proof.
  unfold link_sum. rewrite sum_fmap_minus. apply sum_fmap_ext.
  intros ql _. unfold Qcdiv. ring.
Qed.

Lemma sum_entries_keys {V} (corpus : gmap string V) (f : string → Qc) :
  sum ((λ ql : string * V, f ql.1) <$> map_to_list corpus) = sum (f <$> keys corpus).
Proof. unfold keys. by rewrite <- list_fmap_compose. Qed.

(** The change of one pass, written with the vector the pass produces. *)
Lemma total_diff_next corpus d ranks :
  total_diff corpus d ranks =
    sum ((λ q, Qcabs (next_ranks corpus d ranks !!! q - ranks !!! q)) <$> keys corpus).
Proof.
  rewrite total_diff_eq. apply sum_fmap_ext.
  intros q Hq%elem_of_keys. by rewrite next_ranks_lookup_total.
Qed.

(** A pass started from the result of a pass changes the ranks by at most
    the damping factor times the change of that earlier pass. *)
Lemma total_diff_next_le corpus d ranks :
  0 ≤ d →
  total_diff corpus d (next_ranks corpus d ranks) ≤ d * total_diff corpus d ranks.
Proof.
  intros Hd. set (r' := next_ranks corpus d ranks).
  set (g := λ ql : string * gset string,
              Qcabs (r' !!! ql.1 - ranks !!! ql.1) / Qc_of_nat (size ql.2)).
  trans (sum ((λ p, d * sum (g <$> filter (λ ql : string * gset string, p ∈ ql.2)
                                     (map_to_list corpus))) <$> keys corpus)).
  { rewrite total_diff_eq. apply sum_fmap_le. intros p Hp%elem_of_keys.
    replace (r' !!! p) with (new_rank corpus d ranks p)
      by (symmetry; by apply next_ranks_lookup_total).
    replace (new_rank corpus d r' p - new_rank corpus d ranks p)
      with (d * (link_sum corpus r' p - link_sum corpus ranks p))
      by (unfold new_rank; ring).
    rewrite Qcabs_Qcmult, (Qcabs_pos d) by done.
    apply Qcmult_le_mono_nonneg_l; [done|].
    rewrite link_sum_diff. etrans; [apply Qcabs_sum_fmap|].
    apply reflexive_eq, sum_fmap_ext. intros ql _.
    unfold g. apply Qcabs_div_nat. }
  rewrite sum_fmap_scale, sum_link_sums, total_diff_next.
  apply Qcmult_le_mono_nonneg_l; [done|].
  rewrite <- (sum_entries_keys corpus (λ q, Qcabs (r' !!! q - ranks !!! q))).
  apply sum_fmap_le. intros ql _. unfold g.
  apply Qc_share_le; [|apply Qcabs_nonneg].
  apply length_filter_elem_of_le, NoDup_keys.
Qed.

(** *** Bounds on the ranks *)

Lemma sum_values_dom {V} (r : gmap string Qc) (corpus : gmap string V) :
  dom r = dom corpus → sum_values r = sum ((λ q, r !!! q) <$> keys corpus).
Proof.
  intros Hdom.
  by rewrite sum_values_keys, keys_elements_dom, Hdom, <- keys_elements_dom.
Qed.

Lemma lookup_le_sum_values (r : gmap string Qc) p x :
  map_Forall (λ _ y, 0 ≤ y) r → r !! p = Some x → x ≤ sum_values r.
Proof.
  intros Hall Hp. rewrite <- (insert_delete_id r p x Hp).
  rewrite sum_values_insert_fresh by apply lookup_delete_eq.
  rewrite <- (Qcplus_0_r x) at 1. apply Qcplus_le_mono_l.
  apply sum_nonneg, list.Forall_forall. intros y [k Hk]%elem_of_values.
  apply lookup_delete_Some in Hk as [_ Hk]. by eapply Hall.
Qed.

Lemma link_sum_nonneg corpus (r : gmap string Qc) p :
  (∀ q, q ∈ dom corpus → 0 ≤ r !!! q) → 0 ≤ link_sum corpus r p.
Proof.
  intros Hr. unfold link_sum. apply sum_nonneg, list.Forall_forall.
  intros x [[q links] [-> [Hq Hp]%elem_of_linking_entries]]%list_elem_of_fmap.
  simpl in *. apply Qcdiv_nonneg.
  - apply Hr. by eapply elem_of_dom_2.
  - apply Qc_of_nat_pos, size_pos_of_non_empty. intros ->.
    by apply not_elem_of_empty in Hp.
Qed.

Lemma new_rank_lower corpus d (r : gmap string Qc) p :
  0 ≤ d → (∀ q, q ∈ dom corpus → 0 ≤ r !!! q) →
  (1 - d) / Qc_of_nat (size corpus) ≤ new_rank corpus d r p.
Proof.
  intros Hd Hr. unfold new_rank.
  rewrite <- (Qcplus_0_r ((1 - d) / _)) at 1. apply Qcplus_le_mono_l.
  apply Qcmult_nonneg_nonneg; [done | by apply link_sum_nonneg].
Qed.

(** A pass does not create rank: what the pages pass on along their links is
    at most what they hold. *)
Lemma sum_next_ranks_le corpus d (r : gmap string Qc) :
  corpus ≠ ∅ → 0 ≤ d → (∀ q, q ∈ dom corpus → 0 ≤ r !!! q) →
  dom r = dom corpus →
  sum_values (next_ranks corpus d r) ≤ (1 - d) + d * sum_values r.
Proof.
  intros Hne Hd Hr Hdom.
  rewrite (sum_values_dom _ corpus) by apply next_ranks_dom.
  rewrite (sum_fmap_ext _ (λ p, (1 - d) / Qc_of_nat (size corpus)
                                + d * link_sum corpus r p))
    by (intros p Hp%elem_of_keys; by apply next_ranks_lookup_total).
  rewrite sum_fmap_plus, sum_fmap_const, sum_fmap_scale, length_keys.
  replace (Qc_of_nat (size corpus) * ((1 - d) / Qc_of_nat (size corpus)))
    with (1 - d)
    by (field; apply Qc_of_nat_ne_0; by rewrite map_size_empty_iff).
  apply Qcplus_le_mono_l, Qcmult_le_mono_nonneg_l; [done|].
  unfold link_sum. rewrite sum_link_sums, (sum_values_dom r corpus Hdom).
  rewrite <- (sum_entries_keys corpus (λ q, r !!! q)).
  apply sum_fmap_le. intros [q links] Hq%elem_of_map_to_list. simpl.
  apply Qc_share_le.
  - apply length_filter_elem_of_le, NoDup_keys.
  - apply Hr. by eapply elem_of_dom_2.
Qed.

Lemma ranks_after_bounds corpus d k :
  corpus ≠ ∅ → 0 ≤ d ≤ 1 →
  (∀ q, q ∈ dom corpus →
     (1 - d) / Qc_of_nat (size corpus) ≤ ranks_after corpus d k !!! q)
  ∧ sum_values (ranks_after corpus d k) ≤ 1.
Proof.
  intros Hne [Hd0 Hd1].
  assert (0 < Qc_of_nat (size corpus)) as HN.
  { apply Qc_of_nat_pos. apply map_size_non_empty_iff in Hne. lia. }
  assert (0 ≤ (1 - d) / Qc_of_nat (size corpus)) as Hu.
  { apply Qcdiv_nonneg; [|done].
    apply (Qcplus_le_mono_r _ _ d). by ring_simplify. }
  induction k as [|k [IHlow IHsum]].
  - unfold ranks_after, initial_ranks. cbn [Nat.iter nat_rect]. split.
    + intros q [links Hq]%elem_of_dom.
      rewrite lookup_total_alt, lookup_fmap, Hq. simpl.
      unfold Qcdiv. apply Qcmult_le_mono_nonneg_r.
      * apply Qclt_le_weak. by apply Qcinv_pos.
      * rewrite <- (Qcplus_0_r 1) at 2. unfold Qcminus.
        apply Qcplus_le_mono_l. apply (Qcplus_le_mono_r _ _ d).
        by ring_simplify.
    + rewrite sum_values_const. apply reflexive_eq. field.
      intros Heq. rewrite Heq in HN. by apply (irreflexivity Qclt 0).
  - assert (∀ q, q ∈ dom corpus → 0 ≤ ranks_after corpus d k !!! q) as Hnonneg.
    { intros q Hq. etrans; [exact Hu | by apply IHlow]. }
    unfold ranks_after. rewrite Nat.iter_succ. fold (ranks_after corpus d k).
    split.
    + intros q Hq. rewrite next_ranks_lookup_total by done.
      by apply new_rank_lower.
    + etrans; [apply sum_next_ranks_le; [done..|apply ranks_after_dom]|].
      trans ((1 - d) + d * 1).
      * apply Qcplus_le_mono_l. by apply Qcmult_le_mono_nonneg_l.
      * apply reflexive_eq. ring.
Qed.

(** X2: for a damping factor in [0,1] the vector [iterate_pagerank] returns
    has exactly the pages of the corpus as keys and, in exact arithmetic
    (ranks as rationals), its ranks add up to at most 1 and each rank lies
    between [(1 - damping_factor) / N] and 1.  Both bounds are attained, so
    the floats of the code keep them up to their rounding errors only. *)
Theorem iterate_pagerank_bounds fuel corpus d r :
  0 ≤ d ≤ 1 →
  iterate_pagerank fuel corpus d = Some (Ok r) →
  dom r = dom corpus
  ∧ sum_values r ≤ 1
  ∧ ∀ p x, r !! p = Some x → (1 - d) / Qc_of_nat (size corpus) ≤ x ≤ 1.
Proof.
  intros Hd [Hne [nr (k & _ & -> & _)%iterate_loop_spec]]%iterate_pagerank_loop.
  fold (ranks_after corpus d k).
  destruct (ranks_after_bounds corpus d k Hne Hd) as [Hlow Hsum].
  pose proof (ranks_after_dom corpus d k) as Hdom.
  assert (0 ≤ (1 - d) / Qc_of_nat (size corpus)) as Hu.
  { apply Qcdiv_nonneg.
    - apply (Qcplus_le_mono_r _ _ d). ring_simplify. apply Hd.
    - apply Qc_of_nat_pos. apply map_size_non_empty_iff in Hne. lia. }
  assert (∀ p x, ranks_after corpus d k !! p = Some x →
                 (1 - d) / Qc_of_nat (size corpus) ≤ x) as Hlow'.
  { intros p x Hp. rewrite <- (lookup_total_correct _ _ _ Hp).
    apply Hlow. rewrite <- Hdom. by eapply elem_of_dom_2. }
  repeat split; [done | done | by eapply Hlow' |].
  etrans; [|exact Hsum]. eapply lookup_le_sum_values; [|done].
  intros q y Hq. etrans; [exact Hu | by eapply Hlow'].
Qed.

Lemma iterate_pagerank_bounds_witness :
  dom chain3_ranks = dom chain3
  ∧ sum_values chain3_ranks ≤ 1
  ∧ ∀ p x, chain3_ranks !! p = Some x →
      (1 - Q2Qc (85 # 100)) / Qc_of_nat (size chain3) ≤ x ≤ 1.
Proof.
  apply (iterate_pagerank_bounds 4 chain3 (Q2Qc (85 # 100)) chain3_ranks).
  - split; apply (bool_decide_unpack _); vm_compute; exact I.
  - apply (bool_decide_unpack _). vm_compute. exact I.
Defined.

(** *** Termination *)

Lemma Qcabs_minus_le (a b : Qc) : 0 ≤ a → 0 ≤ b → Qcabs (a - b) ≤ a + b.
Proof.
  intros Ha Hb. unfold Qcminus. etrans; [apply Qcabs_triangle|].
  by rewrite Qcabs_opp, !Qcabs_pos.
Qed.

(** The first pass changes the ranks by at most 2. *)
Lemma total_diff_initial corpus d :
  corpus ≠ ∅ → 0 ≤ d ≤ 1 → total_diff corpus d (initial_ranks corpus) ≤ 1 + 1.
Proof.
  intros Hne Hd.
  destruct (ranks_after_bounds corpus d 0 Hne Hd) as [Hlow0 Hsum0].
  destruct (ranks_after_bounds corpus d 1 Hne Hd) as [Hlow1 Hsum1].
  pose proof (ranks_after_dom corpus d 0) as Hdom0.
  pose proof (ranks_after_dom corpus d 1) as Hdom1.
  unfold ranks_after in *. cbn [Nat.iter nat_rect] in *.
  assert (0 ≤ (1 - d) / Qc_of_nat (size corpus)) as Hu.
  { apply Qcdiv_nonneg.
    - apply (Qcplus_le_mono_r _ _ d). ring_simplify. apply Hd.
    - apply Qc_of_nat_pos. apply map_size_non_empty_iff in Hne. lia. }
  rewrite total_diff_next.
  etrans; [|apply Qcplus_le_compat; [exact Hsum1 | exact Hsum0]].
  rewrite (sum_values_dom _ corpus Hdom1), (sum_values_dom _ corpus Hdom0).
  rewrite <- sum_fmap_plus. apply sum_fmap_le. intros q Hq%elem_of_keys.
  apply Qcabs_minus_le; (etrans; [exact Hu|]); [by apply Hlow1 | by apply Hlow0].
Qed.

Lemma total_diff_ranks_after corpus d k :
  corpus ≠ ∅ → 0 ≤ d ≤ 1 →
  total_diff corpus d (ranks_after corpus d k) ≤ (1 + 1) * d ^ k.
Proof.
  intros Hne Hd. induction k as [|k IH].
  - simpl. rewrite Qcmult_1_r. by apply total_diff_initial.
  - unfold ranks_after. rewrite Nat.iter_succ. fold (ranks_after corpus d k).
    etrans; [apply total_diff_next_le, Hd|].
    replace ((1 + 1) * d ^ S k) with (d * ((1 + 1) * d ^ k)) by (simpl; ring).
    apply Qcmult_le_mono_nonneg_l; [apply Hd | done].
Qed.

(** X3: on a non-empty corpus and for a damping factor in [0,1],
    [iterate_pagerank] reaches its [break] within [k + 1] passes as soon as
    [2 * damping_factor ^ k] is below the threshold: with more than [k]
    units of fuel it returns a rank vector. *)
Theorem iterate_pagerank_terminates fuel corpus d k :
  corpus ≠ ∅ → 0 ≤ d ≤ 1 → (1 + 1) * d ^ k < threshold → (k < fuel)%nat →
  ∃ r, iterate_pagerank fuel corpus d = Some (Ok r).
Proof.
  intros Hne Hd Hk Hfuel.
  destruct (iterate_loop_terminates fuel corpus d (initial_ranks corpus) k)
    as [[r nr] Hloop]; [done | |].
  - fold (ranks_after corpus d k).
    eapply Qcle_lt_trans; [by apply total_diff_ranks_after | done].
  - exists r. apply iterate_pagerank_loop. split; [done | by exists nr].
Qed.

Lemma iterate_pagerank_terminates_witness :
  ∃ r, iterate_pagerank 53 cycle3 (Q2Qc (85 # 100)) = Some (Ok r).
Proof.
  apply (iterate_pagerank_terminates 53 cycle3 (Q2Qc (85 # 100)) 52).
  - apply (bool_decide_unpack _). vm_compute. exact I.
  - split; apply (bool_decide_unpack _); vm_compute; exact I.
  - apply (bool_decide_unpack _). vm_compute. exact I.
  - apply (bool_decide_unpack _). vm_compute. exact I.
Defined.

Lemma iterate_pagerank_no_sinks_sum_witness :
  sum_values (<["A" := Q2Qc (1 # 2)]> {[ "B" := Q2Qc (1 # 2) ]} : gmap string Qc) = 1.
Proof.
  apply (iterate_pagerank_no_sinks_sum two_cycle (Q2Qc (85 # 100))) with (fuel := 1%nat).
  - apply (bool_decide_unpack _). vm_compute. exact I.
  - apply (bool_decide_unpack _). vm_compute. exact I.
  - apply (bool_decide_unpack _). vm_compute. exact I.
  - apply (bool_decide_unpack _). vm_compute. exact I.
Defined.

(** *** Edge cases of the iteration *)

(** X5: with damping factor 0 the first pass reproduces the initial ranks,
    so on a non-empty corpus [iterate_pagerank] stops in its first pass
    and returns the rank [1 / N] for every page. *)
Theorem iterate_pagerank_damping_zero fuel corpus :
  corpus ≠ ∅ →
  iterate_pagerank (S fuel) corpus 0
    = Some (Ok ((λ _, 1 / Qc_of_nat (size corpus)) <$> corpus)).
Proof.
  intros Hne.
  assert (total_diff corpus 0 (initial_ranks corpus) = 0) as Hdiff.
  { rewrite total_diff_eq. apply sum_fmap_zero.
    intros p [links Hp]%elem_of_keys%elem_of_dom.
    unfold new_rank, initial_ranks.
    rewrite lookup_total_alt, lookup_fmap, Hp. simpl.
    replace ((1 - 0) / Qc_of_nat (size corpus)
             + 0 * link_sum corpus ((λ _, 1 / Qc_of_nat (size corpus)) <$> corpus) p
             - 1 / Qc_of_nat (size corpus)) with (Q2Qc 0)
      by (unfold Qcdiv; ring).
    by apply Qc_is_canon. }
  unfold iterate_pagerank. rewrite decide_False by (by rewrite map_size_empty_iff).
  rewrite iterate_loop_unfold, Hdiff, decide_True by done. done.
Qed.

Lemma iterate_pagerank_damping_zero_witness :
  iterate_pagerank 1 chain3 0
    = Some (Ok ((λ _, 1 / Qc_of_nat (size chain3)) <$> chain3)).
Proof.
  apply (iterate_pagerank_damping_zero 0 chain3).
  apply (bool_decide_unpack _). vm_compute. exact I.
Defined.

(** ** More on the transition model *)

(** X8: for a page of the corpus with at least one link, the keys of the
    distribution are the pages of the corpus together with the links of the
    page, also those that leave the corpus, and, in exact arithmetic
    (probabilities as rationals), the probabilities add up to 1.  The floats
    of the code reach this total up to their rounding errors only. *)
Theorem transition_model_linked_total corpus page links d dist :
  corpus !! page = Some links → links ≠ ∅ →
  transition_model corpus page d = Ok dist →
  dom dist = dom corpus ∪ links ∧ sum_values dist = 1.
Proof.
  intros Hpage Hlinks Hdist.
  pose proof (transition_model_dom _ _ _ _ Hdist) as Hdom.
  rewrite (out_links_Some _ _ _ Hpage) in Hdom. split; [done|].
  assert (corpus ≠ ∅) as Hne by (intros ->; by rewrite lookup_empty in Hpage).
  set (uniform_prob := (1 - d) / Qc_of_nat (size corpus)).
  set (linked_prob := d / Qc_of_nat (size links)).
  rewrite sum_values_keys.
  rewrite (sum_fmap_ext _
    (λ p, (if decide (p ∈ links) then linked_prob else 0)
          + (if decide (p ∈ dom corpus) then uniform_prob else 0))).
  - rewrite sum_fmap_plus, !sum_fmap_indicator.
    rewrite !length_filter_elem_of.
    + rewrite size_dom. unfold linked_prob, uniform_prob. field. split.
      * apply Qc_of_nat_ne_0. by rewrite map_size_empty_iff.
      * apply Qc_of_nat_ne_0. pose proof (size_pos_of_non_empty _ Hlinks). lia.
    + apply NoDup_keys.
    + intros p Hp. apply elem_of_keys. rewrite Hdom. by apply elem_of_union_l.
    + apply NoDup_keys.
    + intros p Hp. apply elem_of_keys. rewrite Hdom. by apply elem_of_union_r.
  - intros p Hp%elem_of_keys.
    rewrite lookup_total_alt, (transition_model_lookup _ _ _ _ p Hdist). simpl.
    rewrite (out_links_Some _ _ _ Hpage).
    destruct (decide (p ∈ dom corpus)), (decide (p ∈ links)); simpl.
    1-3: unfold linked_prob, uniform_prob, Qcdiv; ring.
    rewrite Hdom, elem_of_union in Hp. tauto.
Qed.

Lemma transition_model_linked_total_witness :
  dom leaky_dist = dom leaky ∪ {["B"; "Z"]} ∧ sum_values leaky_dist = 1.
Proof.
  apply (transition_model_linked_total leaky "A" {["B"; "Z"]} (Q2Qc (1 # 2)) leaky_dist).
  - apply (bool_decide_unpack _). vm_compute. exact I.
  - apply (bool_decide_unpack _). vm_compute. exact I.
  - apply (bool_decide_unpack _). vm_compute. exact I.
Defined.

(** ** More on the sampling estimator *)

Lemma sample_step_sum corpus d st bits st' :
  sample_step corpus d st bits = Ok st' →
  sum_values st'.2 = sum_values st.2 + 1
  ∧ ∀ c, map_Forall (λ _ x, c ≤ x) st.2 → map_Forall (λ _ x, c ≤ x) st'.2.
Proof.
  destruct st as [page page_rank]. unfold sample_step. simpl.
  destruct (transition_model corpus page d) as [dist|]; [|done]. simpl.
  destruct (choices _ _ bits) as [page'|]; [|done]. simpl.
  destruct (iadd page_rank page' 1) as [page_rank'|] eqn:Hiadd; [|done]. simpl.
  intros [= <-]. simpl. apply iadd_Ok in Hiadd as [v [Hv ->]]. split.
  - rewrite (sum_values_insert _ _ v) by done. ring.
  - intros c Hall. apply map_Forall_insert_2; [|done].
    trans v; [by eapply Hall|].
    rewrite <- (Qcplus_0_r v) at 1. by apply Qcplus_le_mono_l.
Qed.

Lemma sample_loop_sum corpus d rng n i st st' :
  sample_loop corpus d rng n i st = Ok st' →
  sum_values st'.2 = sum_values st.2 + Qc_of_nat n
  ∧ ∀ c, map_Forall (λ _ x, c ≤ x) st.2 → map_Forall (λ _ x, c ≤ x) st'.2.
Proof.
  revert i st. induction n as [|n IH]; intros i st; simpl.
  - intros [= <-]. rewrite Qc_of_nat_0, Qcplus_0_r. done.
  - destruct (sample_step corpus d st (rng i)) as [st1|] eqn:Hstep; [|done].
    simpl. intros Hloop.
    apply sample_step_sum in Hstep as [Hsum1 Hlow1].
    apply IH in Hloop as [Hsum Hlow]. split.
    + rewrite Hsum, Hsum1, Qc_of_nat_S. ring.
    + intros c Hc. by apply Hlow, Hlow1.
Qed.

Lemma sample_counts_sum corpus d n rng counts :
  sample_counts corpus d n rng = Ok counts →
  sum_values counts = Qc_of_nat (Z.to_nat n) + 1
  ∧ map_Forall (λ _ x, 1 / Qc_of_nat (size corpus) ≤ x) counts.
Proof.
  intros Hcounts.
  destruct (sample_counts_inv _ _ _ _ _ Hcounts) as [Hne _].
  unfold sample_counts in Hcounts.
  destruct (choice (keys corpus) (rng 0%nat)) as [page|]; [|done].
  simpl in Hcounts.
  destruct (sample_loop _ _ _ _ _ _) as [st|] eqn:Hloop; [|done].
  injection Hcounts as <-.
  apply sample_loop_sum in Hloop as [Hsum Hlow]. simpl in *. split.
  - rewrite Hsum, sum_values_const. field.
    apply Qc_of_nat_ne_0. by rewrite map_size_empty_iff.
  - apply Hlow. by intros p x [links [<- _]]%lookup_fmap_Some.
Qed.

(** X9: in exact arithmetic (counters as rationals), the counters of the
    walk add up to [n + 1] (1 from the seeding of the counters with [1 / N],
    1 for each of the [n] steps; 1 when [n] is negative), so
    [sample_pagerank] returns each counter divided by [n + 1].  In the
    floats of the code the [N] seeds [1 / N] add up to 1 up to a rounding
    error only, and so does the total. *)
Theorem sample_pagerank_total corpus d n rng counts :
  sample_counts corpus d n rng = Ok counts →
  sum_values counts = Qc_of_nat (Z.to_nat n) + 1
  ∧ sample_pagerank corpus d n rng
    = Ok ((λ rank, rank / (Qc_of_nat (Z.to_nat n) + 1)) <$> counts).
Proof.
  intros Hcounts.
  destruct (sample_counts_sum _ _ _ _ _ Hcounts) as [Hsum _].
  split; [done|]. unfold sample_pagerank. rewrite Hcounts. simpl.
  assert (0 < sum_values counts) as Hpos.
  { rewrite Hsum. apply Qcplus_nonneg_pos; [apply Qc_of_nat_nonneg | done]. }
  by rewrite normalize_pos, Hsum.
Qed.

Lemma sample_pagerank_total_witness :
  sum_values walk_CC_counts = Qc_of_nat (Z.to_nat 2) + 1
  ∧ sample_pagerank chain3 (Q2Qc (85 # 100)) 2 (λ i, Z.of_nat i * 977)%Z
    = Ok ((λ rank, rank / (Qc_of_nat (Z.to_nat 2) + 1)) <$> walk_CC_counts).
Proof.
  apply (sample_pagerank_total chain3 (Q2Qc (85 # 100)) 2 (λ i, Z.of_nat i * 977)%Z).
  apply (bool_decide_unpack _). vm_compute. exact I.
Defined.

(** X10: a rank vector returned by [sample_pagerank] has exactly the pages of
    the corpus as keys and, in exact arithmetic (ranks as rationals), each
    of its ranks lies between [1 / (N * (n + 1))], the share of the seeding,
    and 1.  The lower bound is attained by a page the walk never visits, so
    the floats of the code keep it up to their rounding errors only. *)
Theorem sample_pagerank_range corpus d n rng r :
  sample_pagerank corpus d n rng = Ok r →
  dom r = dom corpus
  ∧ ∀ p x, r !! p = Some x →
      1 / (Qc_of_nat (size corpus) * (Qc_of_nat (Z.to_nat n) + 1)) ≤ x ≤ 1.
Proof.
  unfold sample_pagerank.
  destruct (sample_counts corpus d n rng) as [counts|] eqn:Hcounts; [|done].
  simpl. destruct (sample_counts_inv _ _ _ _ _ Hcounts) as [Hne [Hdom Hpos]].
  destruct (sample_counts_sum _ _ _ _ _ Hcounts) as [Hsum Hlow].
  assert (0 < Qc_of_nat (Z.to_nat n) + 1) as HT
    by (apply Qcplus_nonneg_pos; [apply Qc_of_nat_nonneg | done]).
  assert (0 < Qc_of_nat (size corpus)) as HN.
  { apply Qc_of_nat_pos. apply map_size_non_empty_iff in Hne. lia. }
  rewrite normalize_pos by (by rewrite Hsum). rewrite Hsum. intros [= <-].
  split; [by rewrite dom_fmap_L|].
  intros p x [c [<- Hc]]%lookup_fmap_Some.
  assert (Qc_of_nat (Z.to_nat n) + 1 ≠ 0) as HT'
    by (intros Heq; rewrite Heq in HT; by apply (irreflexivity Qclt 0)).
  assert (Qc_of_nat (size corpus) ≠ 0) as HN'
    by (intros Heq; rewrite Heq in HN; by apply (irreflexivity Qclt 0)).
  split.
  - replace (1 / (Qc_of_nat (size corpus) * (Qc_of_nat (Z.to_nat n) + 1)))
      with (1 / Qc_of_nat (size corpus) / (Qc_of_nat (Z.to_nat n) + 1))
      by (by field).
    unfold Qcdiv at 1 3. apply Qcmult_le_mono_nonneg_r.
    + apply Qclt_le_weak. by apply Qcinv_pos.
    + by eapply Hlow.
  - apply (Qcmult_le_mono_pos_r _ _ (Qc_of_nat (Z.to_nat n) + 1) HT).
    replace (c / (Qc_of_nat (Z.to_nat n) + 1) * (Qc_of_nat (Z.to_nat n) + 1))
      with c by (by field).
    rewrite Qcmult_1_l, <- Hsum. eapply lookup_le_sum_values; [|done].
    intros q y Hq. apply Qclt_le_weak. by eapply Hpos.
Qed.

Lemma sample_pagerank_range_witness :
  dom walk_CC = dom chain3
  ∧ ∀ p x, walk_CC !! p = Some x →
      1 / (Qc_of_nat (size chain3) * (Qc_of_nat (Z.to_nat 2) + 1)) ≤ x ≤ 1.
Proof.
  apply (sample_pagerank_range chain3 (Q2Qc (85 # 100)) 2 (λ i, Z.of_nat i * 977)%Z).
  apply (bool_decide_unpack _). vm_compute. exact I.
Defined.

(** ** The loader *)

Lemma endswith_spec s suffix :
  endswith s suffix = true ↔ ∃ prefix, s = prefix +:+ suffix.
Proof.
  induction s as [|c s IH]; cbn [endswith].
  - destruct (String.eqb_spec "" suffix) as [<-|Hne].
    + split; [by exists "" | done].
    + split; [done|]. intros [[|c prefix] Heq]; simpl in Heq; [done | discriminate].
  - destruct (String.eqb_spec (String c s) suffix) as [<-|Hne].
    + split; [by exists "" | done].
    + rewrite IH. split.
      * intros [prefix ->]. by exists (String c prefix).
      * intros [[|c' prefix] Heq]; simpl in Heq; [done|].
        injection Heq as -> ->. by exists prefix.
Qed.

Example crawl_site : crawl words site = site_pages.
Proof. apply (bool_decide_unpack _). vm_compute. exact I. Qed.

Section crawl_properties.
Context (findall : string → list string).

(** The entry the first loop makes for a file that is a page. *)
Lemma crawl_read_lookup (directory : gmap string string)
    (l : list (string * string)) (m : gmap string (gset string)) p :
  NoDup l.*1 →
  (∀ name contents, (name, contents) ∈ l → directory !! name = Some contents) →
  foldl (crawl_read findall) m l !! p =
    if decide (p ∈ l.*1 ∧ endswith p ".html" = true)
    then (λ contents, list_to_set (findall contents) ∖ {[p]}) <$> directory !! p
    else m !! p.
Proof.
  revert m. induction l as [|[name contents] l IH]; intros m Hnodup Hdir.
  { cbn [foldl]. rewrite decide_False; [done|]. intros [Hp%elem_of_nil _]. done. }
  cbn [foldl]. csimpl in Hnodup. apply list.NoDup_cons in Hnodup as [Hname Hnodup].
  rewrite IH; [|done|]; last first.
  { intros name' contents' Hin. apply Hdir. by right. }
  destruct (decide (p ∈ l.*1 ∧ endswith p ".html" = true)) as [[Hp Hhtml]|Hnot].
  - rewrite decide_True; [done|]. split; [|done]. csimpl. by right.
  - unfold crawl_read.
    destruct (decide (p = name)) as [->|Hne].
    + destruct (endswith name ".html") eqn:Hhtml; simpl.
      * rewrite decide_True by (split; [csimpl; by left | done]).
        rewrite lookup_insert_eq, (Hdir name contents) by left. done.
      * rewrite decide_False; [done|]. by intros [_ ?].
    + rewrite decide_False; last first.
      { intros [Hp Hhtml]. apply Hnot. split; [|done].
        csimpl in Hp. apply elem_of_cons in Hp as [?|?]; done. }
      destruct (endswith name ".html"); simpl; [|done].
      by rewrite lookup_insert_ne.
Qed.

Lemma crawl_first_loop (directory : gmap string string) p :
  foldl (crawl_read findall) ∅ (map_to_list directory) !! p =
    if endswith p ".html"
    then (λ contents, list_to_set (findall contents) ∖ {[p]}) <$> directory !! p
    else None.
Proof.
  rewrite (crawl_read_lookup directory).
  - destruct (endswith p ".html") eqn:Hhtml.
    + case_decide as Hp; [done|].
      rewrite lookup_empty. symmetry. apply fmap_None, not_elem_of_dom.
      intros Hdom. apply Hp. split; [|done].
      by apply (elem_of_keys directory p).
    + rewrite decide_False; [apply lookup_empty|]. by intros [_ ?].
  - apply NoDup_fst_map_to_list.
  - intros name contents. apply elem_of_map_to_list.
Qed.

(** The second loop keeps the keys and restricts every set of links to
    them. *)
Lemma crawl_restrict_fold (l : list string) (m : gmap string (gset string)) :
  NoDup l → (∀ k, k ∈ l → k ∈ dom m) →
  dom (foldl crawl_restrict m l) = dom m
  ∧ ∀ p, foldl crawl_restrict m l !! p =
      if decide (p ∈ l)
      then Some (filter (λ link, link ∈ dom m) (m !!! p)) else m !! p.
Proof.
  intros Hnodup. revert m.
  induction Hnodup as [|x l Hx _ IH]; intros m Hl; cbn [foldl].
  { split; [done|]. intros p. rewrite decide_False; [done | apply not_elem_of_nil]. }
  assert (dom (crawl_restrict m x) = dom m) as Hdom.
  { unfold crawl_restrict. rewrite dom_insert_L.
    apply subseteq_union_1_L, singleton_subseteq_l, Hl. by left. }
  destruct (IH (crawl_restrict m x)) as [IHdom IHlookup].
  { intros k Hk. rewrite Hdom. apply Hl. by right. }
  split; [by rewrite IHdom|].
  intros p. rewrite IHlookup, Hdom. destruct (decide (p = x)) as [->|Hne].
  - rewrite decide_False by done. rewrite decide_True by left.
    unfold crawl_restrict. by rewrite lookup_insert_eq.
  - replace (crawl_restrict m x !!! p) with (m !!! p)
      by (unfold crawl_restrict; by rewrite lookup_total_insert_ne).
    replace (crawl_restrict m x !! p) with (m !! p)
      by (unfold crawl_restrict; by rewrite lookup_insert_ne).
    destruct (decide (p ∈ l)) as [Hp|Hp].
    + rewrite decide_True; [done | by right].
    + rewrite decide_False; [done | rewrite elem_of_cons; tauto].
Qed.

Lemma elem_of_dom_crawl (directory : gmap string string) p :
  p ∈ dom (crawl findall directory) ↔
  p ∈ dom directory ∧ endswith p ".html" = true.
Proof.
  unfold crawl.
  destruct (crawl_restrict_fold
              (keys (foldl (crawl_read findall) ∅ (map_to_list directory)))
              (foldl (crawl_read findall) ∅ (map_to_list directory)))
    as [-> _]; [apply NoDup_keys | by intros k ?%elem_of_keys |].
  rewrite !elem_of_dom, crawl_first_loop.
  destruct (endswith p ".html"); [|split; [by intros [? ?] | by intros [_ ?]]].
  rewrite fmap_is_Some. tauto.
Qed.

(** X11: the keys of the dictionary [crawl] returns are the names of the
    directory that end in ".html"; a directory without such a name gives
    the empty dictionary. *)
Theorem crawl_pages (directory : gmap string string) :
  dom (crawl findall directory)
    = filter (λ name, endswith name ".html" = true) (dom directory)
  ∧ (map_Forall (λ name _, endswith name ".html" = false) directory →
     crawl findall directory = ∅).
Proof.
  assert (dom (crawl findall directory)
          = filter (λ name, endswith name ".html" = true) (dom directory)) as Hdom.
  { apply set_eq. intros p. rewrite elem_of_filter, elem_of_dom_crawl. tauto. }
  split; [done|]. intros Hnone.
  apply dom_empty_iff_L, set_eq. intros p. rewrite elem_of_dom_crawl, elem_of_dom.
  split; [|by intros ?%not_elem_of_empty].
  intros [[contents Hp] Hhtml]. by rewrite (Hnone p contents Hp) in Hhtml.
Qed.

(** The dictionary entry by entry. *)
Lemma crawl_lookup (directory : gmap string string) p :
  crawl findall directory !! p =
    if endswith p ".html"
    then (λ contents,
            filter (λ link, link ∈ dom (crawl findall directory))
                   (list_to_set (findall contents) ∖ {[p]})) <$> directory !! p
    else None.
Proof.
  unfold crawl at 1.
  destruct (crawl_restrict_fold
              (keys (foldl (crawl_read findall) ∅ (map_to_list directory)))
              (foldl (crawl_read findall) ∅ (map_to_list directory)))
    as [Hdom Hlookup]; [apply NoDup_keys | by intros k ?%elem_of_keys |].
  fold (crawl findall directory) in Hdom. rewrite Hlookup, Hdom.
  case_decide as Hp.
  - apply elem_of_keys, elem_of_dom in Hp as [links Hlinks].
    rewrite (lookup_total_correct _ _ _ Hlinks).
    rewrite crawl_first_loop in Hlinks.
    destruct (endswith p ".html"); [|done].
    destruct (directory !! p) as [contents|]; [|done].
    simpl in *. by injection Hlinks as <-.
  - rewrite elem_of_keys in Hp. apply not_elem_of_dom in Hp as Hnone.
    rewrite Hnone. rewrite crawl_first_loop in Hnone.
    destruct (endswith p ".html"); [|done].
    by destruct (directory !! p).
Qed.

Lemma elem_of_crawl_links (directory : gmap string string) p links contents q :
  crawl findall directory !! p = Some links → directory !! p = Some contents →
  q ∈ links ↔ q ∈ findall contents ∧ q ≠ p ∧ q ∈ dom (crawl findall directory).
Proof.
  intros Hlinks Hp. rewrite crawl_lookup, Hp in Hlinks.
  destruct (endswith p ".html"); [|done].
  simpl in Hlinks. injection Hlinks as <-.
  rewrite elem_of_filter, elem_of_difference, elem_of_list_to_set,
    elem_of_singleton. tauto.
Qed.

Lemma crawl_lookup_directory (directory : gmap string string) p links :
  crawl findall directory !! p = Some links → is_Some (directory !! p).
Proof.
  rewrite crawl_lookup. destruct (endswith p ".html"); [|done].
  by destruct (directory !! p); [eexists|].
Qed.

(** X12: a page links to exactly those targets found in its text that are
    other pages of the corpus. *)
Theorem crawl_links (directory : gmap string string) p links :
  crawl findall directory !! p = Some links →
  ∃ contents, directory !! p = Some contents
    ∧ ∀ q, q ∈ links ↔
        q ∈ findall contents ∧ q ≠ p ∧ q ∈ dom (crawl findall directory).
Proof.
  intros Hlinks.
  destruct (crawl_lookup_directory _ _ _ Hlinks) as [contents Hp].
  exists contents. split; [done|]. intros q. by apply elem_of_crawl_links.
Qed.

Lemma crawl_valid (directory : gmap string string) :
  valid_graph (crawl findall directory).
Proof.
  intros p links Hlinks q Hq.
  destruct (crawl_lookup_directory _ _ _ Hlinks) as [contents Hp].
  pose proof (proj1 (elem_of_crawl_links _ _ _ _ q Hlinks Hp) Hq) as Hin.
  apply Hin.
Qed.

(** X13: the dictionary [crawl] returns is a graph as the estimators expect
    it: every link goes to a page of the corpus, and no page links to
    itself; so on it the distribution of [transition_model] has the pages
    of the corpus as its keys, for every page and damping factor. *)
Theorem crawl_valid_graph (directory : gmap string string) :
  valid_graph (crawl findall directory)
  ∧ map_Forall (λ p links, p ∉ links) (crawl findall directory)
  ∧ ∀ page d dist,
      transition_model (crawl findall directory) page d = Ok dist →
      dom dist = dom (crawl findall directory).
Proof.
  split; [apply crawl_valid | split].
  - intros p links Hlinks Hq.
    destruct (crawl_lookup_directory _ _ _ Hlinks) as [contents Hp].
    pose proof (proj1 (elem_of_crawl_links _ _ _ _ p Hlinks Hp) Hq) as Hin.
    by destruct Hin as (_ & ? & _).
  - intros page d dist. apply transition_model_dom_valid, crawl_valid.
Qed.

(** *** Files that cannot be read *)

Lemma crawl_read_file_raised (l : list (string * file)) e :
  foldl (crawl_read_file findall) (inl e) l = inl e.
Proof. induction l as [|entry l IH]; [done | apply IH]. Qed.

(** While the pages can be read, the first loop is the one of [crawl] on
    their texts. *)
Lemma crawl_read_file_texts (l : list (string * file)) m :
  (∀ name f, (name, f) ∈ l → endswith name ".html" = true → is_text f = true) →
  foldl (crawl_read_file findall) (inr m) l
    = inr (foldl (crawl_read findall) m (prod_map id file_text <$> l)).
Proof.
  revert m. induction l as [|[name f] l IH]; intros m Hl; [done|].
  csimpl. cbn [foldl].
  destruct (endswith name ".html") eqn:Hhtml; cbn [negb].
  - destruct f as [contents|e].
    + apply IH. intros name' f' Hin. apply Hl. by right.
    + specialize (Hl name (Broken e)). discriminate Hl; [by left | done].
  - apply IH. intros name' f' Hin. apply Hl. by right.
Qed.

(** The first page that cannot be read ends the first loop with its
    exception. *)
Lemma crawl_read_file_broken (l : list (string * file)) m name e :
  (name, Broken e) ∈ l → endswith name ".html" = true →
  ∃ name' e',
    (name', Broken e') ∈ l ∧ endswith name' ".html" = true
    ∧ foldl (crawl_read_file findall) (inr m) l = inl e'.
Proof.
  revert m. induction l as [|[name0 f0] l IH]; intros m Hin Hhtml.
  { by apply elem_of_nil in Hin. }
  cbn [foldl]. unfold crawl_read_file at 2.
  destruct (endswith name0 ".html") eqn:Hhtml0; cbn [negb].
  - destruct f0 as [contents|e0].
    + apply elem_of_cons in Hin as [Hhead|Hin]; [done|].
      destruct (IH (<[name0 := list_to_set (findall contents) ∖ {[name0]}]> m)
                  Hin Hhtml) as (name' & e' & Hin' & Hhtml' & Hfold).
      exists name', e'. split; [by right | done].
    + exists name0, e0. split; [by left|]. split; [done|].
      apply crawl_read_file_raised.
  - apply elem_of_cons in Hin as [Hhead|Hin].
    { injection Hhead as -> _. by rewrite Hhtml0 in Hhtml. }
    destruct (IH m Hin Hhtml) as (name' & e' & Hin' & Hhtml' & Hfold).
    exists name', e'. split; [by right | done].
Qed.

(** [crawl] looks at the texts of the pages only. *)
Lemma crawl_pages_only (texts1 texts2 : gmap string string) :
  (∀ name, endswith name ".html" = true → texts1 !! name = texts2 !! name) →
  crawl findall texts1 = crawl findall texts2.
Proof.
  intros Htexts. unfold crawl.
  assert (foldl (crawl_read findall) ∅ (map_to_list texts1)
          = foldl (crawl_read findall) ∅ (map_to_list texts2)) as ->; [|done].
  apply map_eq. intros p. rewrite !crawl_first_loop.
  destruct (endswith p ".html") eqn:Hhtml; [|done]. by rewrite Htexts.
Qed.

(** On a directory whose pages can be read, [crawl_files] is [crawl] on
    the texts. *)
Lemma crawl_files_texts (files : gmap string file) :
  map_Forall (λ name f, endswith name ".html" = true → is_text f = true) files →
  crawl_files findall files = inr (crawl findall (file_text <$> files)).
Proof.
  intros Hfiles. unfold crawl_files, crawl.
  rewrite crawl_read_file_texts; last first.
  { intros name f Hin. apply (Hfiles name f). by apply elem_of_map_to_list. }
  assert (foldl (crawl_read findall) ∅ (prod_map id file_text <$> map_to_list files)
          = foldl (crawl_read findall) ∅ (map_to_list (file_text <$> files))) as ->;
    [|done].
  apply map_eq. intros p.
  rewrite crawl_first_loop.
  assert ((prod_map id file_text <$> map_to_list files).*1 = keys files) as Hkeys.
  { unfold keys. rewrite <- list_fmap_compose. by apply list_fmap_ext; intros ? [? ?]. }
  rewrite (crawl_read_lookup (file_text <$> files)).
  - rewrite Hkeys. destruct (endswith p ".html") eqn:Hhtml.
    + case_decide as Hp; [done|].
      rewrite lookup_empty. symmetry. apply fmap_None.
      rewrite lookup_fmap. apply fmap_None, not_elem_of_dom.
      intros Hdom. apply Hp. split; [|done]. by apply (elem_of_keys files p).
    + rewrite decide_False; [apply lookup_empty|]. by intros [_ ?].
  - rewrite Hkeys. apply NoDup_keys.
  - intros name contents [[name' f] [Heq Hin]]%list_elem_of_fmap.
    injection Heq as -> ->. apply elem_of_map_to_list in Hin.
    by rewrite lookup_fmap, Hin.
Qed.

(** On a directory with a page that cannot be read, [crawl_files] raises
    the exception of such a page. *)
Lemma crawl_files_broken (files : gmap string file) name e :
  files !! name = Some (Broken e) → endswith name ".html" = true →
  ∃ name' e',
    files !! name' = Some (Broken e') ∧ endswith name' ".html" = true
    ∧ crawl_files findall files = inl e'.
Proof.
  intros Hname Hhtml.
  destruct (crawl_read_file_broken (map_to_list files) ∅ name e)
    as (name' & e' & Hin & Hhtml' & Hfold); [by apply elem_of_map_to_list | done |].
  exists name', e'. split; [by apply elem_of_map_to_list|]. split; [done|].
  unfold crawl_files. by rewrite Hfold.
Qed.

(** X17: [crawl] with the errors of [open] and [f.read()].  When every
    entry whose name ends in ".html" can be read, the call returns, and its
    result is the dictionary described for the texts of the entries: only
    the texts of the pages matter, and an entry that is not a page is never
    opened.  When some entry whose name ends in ".html" cannot be read (a
    sub-directory of that name, a file without read permission, bytes that
    are not text), the call raises the exception of such an entry and
    returns no dictionary. *)
Theorem crawl_files_result (files : gmap string file) :
  (map_Forall (λ name f, endswith name ".html" = true → is_text f = true) files →
     crawl_files findall files = inr (crawl findall (file_text <$> files))
     ∧ ∀ texts : gmap string string,
         (∀ name, endswith name ".html" = true →
                  texts !! name = file_text <$> files !! name) →
         crawl_files findall files = inr (crawl findall texts))
  ∧ (∀ name e,
       files !! name = Some (Broken e) → endswith name ".html" = true →
       ∃ name' e',
         files !! name' = Some (Broken e') ∧ endswith name' ".html" = true
         ∧ crawl_files findall files = inl e').
Proof.
  split; [|apply crawl_files_broken].
  intros Hfiles. split; [by apply crawl_files_texts|].
  intros texts Htexts. rewrite crawl_files_texts by done. f_equal.
  apply crawl_pages_only. intros name Hhtml.
  by rewrite Htexts, lookup_fmap.
Qed.
End crawl_properties.

Lemma crawl_pages_witness :
  dom (crawl words site)
    = filter (λ name, endswith name ".html" = true) (dom site)
  ∧ crawl words {[ "notes.txt" := "1.html" ]} = ∅.
Proof.
  split.
  - apply (crawl_pages words site).
  - apply (crawl_pages words {[ "notes.txt" := "1.html" ]}).
    apply (bool_decide_unpack _). vm_compute. exact I.
Defined.

Lemma crawl_links_witness :
  ∃ contents, site !! "1.html" = Some contents
    ∧ ∀ q, q ∈ ({["2.html"; "3.html"]} : gset string) ↔
        q ∈ words contents ∧ q ≠ "1.html" ∧ q ∈ dom (crawl words site).
Proof.
  apply (crawl_links words site "1.html" {["2.html"; "3.html"]}).
  apply (bool_decide_unpack _). vm_compute. exact I.
Defined.

(** ** The command line program *)

Lemma sample_pagerank_empty d n rng : sample_pagerank ∅ d n rng = Raise IndexError.
Proof. done. Qed.

Section main_properties.
Context (findall : string → list string).

(** A directory without pages gives the empty corpus, whatever can be read
    of its entries. *)
Lemma crawl_files_no_pages (directory : gmap string file) :
  map_Forall (λ name _, endswith name ".html" = false) directory →
  crawl_files findall directory = inr ∅.
Proof.
  intros Hnone. rewrite crawl_files_texts; last first.
  { intros name f Hname Hhtml. by rewrite (Hnone name f Hname) in Hhtml. }
  f_equal. apply dom_empty_iff_L, set_eq. intros p.
  rewrite elem_of_dom_crawl, elem_of_dom, lookup_fmap, fmap_is_Some.
  split; [|by intros ?%not_elem_of_empty].
  intros [[f Hp] Hhtml]. by rewrite (Hnone p f Hp) in Hhtml.
Qed.

(** X15: run on a directory without any file whose name ends in ".html",
    [main] prints nothing and ends with the [IndexError] that
    [sample_pagerank] raises on the empty corpus. *)
Theorem main_no_pages argv listdir rng fuel directory :
  length argv = 2%nat →
  listdir (argv !!! 1%nat) = Some directory →
  map_Forall (λ name _, endswith name ".html" = false) directory →
  main findall argv listdir rng fuel = ([], Uncaught IndexError).
Proof.
  intros Hargv Hdir Hnone. unfold main.
  rewrite decide_False by (by intros ?). rewrite Hdir.
  rewrite crawl_files_no_pages by done.
  by rewrite sample_pagerank_empty.
Qed.

(** X16: run on a directory with at least one entry whose name ends in
    ".html", all such entries being files that can be read as text, and
    whatever the links found in the files and the random draws, [main] runs
    to its end: [crawl] returns a corpus, both estimators return a rank
    vector, and both reports are printed.  For the iteration this is a
    statement in exact arithmetic: over the rationals the loop stops within
    53 passes, and the code's floats follow that computation up to their
    rounding errors only. *)
Theorem main_reports argv listdir rng fuel directory page :
  length argv = 2%nat →
  listdir (argv !!! 1%nat) = Some directory →
  map_Forall (λ name f, endswith name ".html" = true → is_text f = true) directory →
  page ∈ dom directory → endswith page ".html" = true →
  (52 < fuel)%nat →
  ∃ corpus ranks1 ranks2,
    crawl_files findall directory = inr corpus
    ∧ sample_pagerank corpus DAMPING SAMPLES rng = Ok ranks1
    ∧ iterate_pagerank fuel corpus DAMPING = Some (Ok ranks2)
    ∧ main findall argv listdir rng fuel
      = (Heading "PageRank Results from Sampling (n = 10000)" :: report ranks1
         ++ Heading "PageRank Results from Iteration" :: report ranks2,
         Returned).
Proof.
  intros Hargv Hdir Hread Hpage Hhtml Hfuel.
  pose proof (crawl_files_texts findall directory Hread) as Hcrawl.
  set (corpus := crawl findall (file_text <$> directory)) in *.
  assert (corpus ≠ ∅) as Hne.
  { intros Hempty.
    assert (page ∈ dom corpus) as Hin.
    { apply elem_of_dom_crawl. split; [|done]. by rewrite dom_fmap_L. }
    rewrite Hempty, dom_empty_L in Hin. by apply not_elem_of_empty in Hin. }
  pose proof (crawl_valid findall (file_text <$> directory)) as Hvalid.
  fold corpus in Hvalid.
  assert (0 ≤ DAMPING < 1) as Hd
    by (split; apply (bool_decide_unpack _); vm_compute; exact I).
  destruct (sample_pagerank_Ok corpus DAMPING SAMPLES rng)
    as [ranks1 Hranks1]; [done..|].
  destruct (iterate_loop_terminates fuel corpus DAMPING (initial_ranks corpus) 52)
    as [[ranks2 nr] Hloop]; [done | |].
  { fold (ranks_after corpus DAMPING 52).
    eapply Qcle_lt_trans.
    - apply total_diff_ranks_after; [done|].
      split; [apply Hd | apply Qclt_le_weak, Hd].
    - apply (bool_decide_unpack _). vm_compute. exact I. }
  assert (iterate_pagerank fuel corpus DAMPING = Some (Ok ranks2))
    as Hranks2 by (apply iterate_pagerank_loop; split; [done | by exists nr]).
  exists corpus, ranks1, ranks2. split; [done|]. split; [done|]. split; [done|].
  unfold main. rewrite decide_False by (by intros ?).
  by rewrite Hdir, Hcrawl, Hranks1, Hranks2.
Qed.

(** X18: run on a directory with an entry whose name ends in ".html" and
    that cannot be read (a sub-directory of that name, a file without read
    permission, bytes that are not text), [main] prints nothing and ends
    with the exception raised for such an entry: no page rank is computed,
    whatever the other pages are. *)
Theorem main_unreadable argv listdir rng fuel directory name e :
  length argv = 2%nat →
  listdir (argv !!! 1%nat) = Some directory →
  directory !! name = Some (Broken e) → endswith name ".html" = true →
  ∃ name' e',
    directory !! name' = Some (Broken e') ∧ endswith name' ".html" = true
    ∧ main findall argv listdir rng fuel = ([], Failed e').
Proof.
  intros Hargv Hdir Hname Hhtml.
  destruct (crawl_files_broken findall directory name e Hname Hhtml)
    as (name' & e' & Hname' & Hhtml' & Hcrawl).
  exists name', e'. split; [done|]. split; [done|].
  unfold main. rewrite decide_False by (by intros ?).
  by rewrite Hdir, Hcrawl.
Qed.
End main_properties.

Lemma crawl_valid_graph_witness :
  valid_graph (crawl words site)
  ∧ map_Forall (λ p links, p ∉ links) (crawl words site)
  ∧ ∀ page d dist,
      transition_model (crawl words site) page d = Ok dist →
      dom dist = dom (crawl words site).
Proof. apply (crawl_valid_graph words site). Defined.

Lemma main_no_pages_witness :
  main words ["pagerank.py"; "empty"] example_listdir (λ i, Z.of_nat i * 977)%Z 53
    = ([], Uncaught IndexError).
Proof.
  apply (main_no_pages words ["pagerank.py"; "empty"] example_listdir
           (λ i, Z.of_nat i * 977)%Z 53 {[ "notes.txt" := Text "1.html" ]}).
  - reflexivity.
  - reflexivity.
  - apply (bool_decide_unpack _). vm_compute. exact I.
Defined.

Lemma main_reports_witness :
  ∃ corpus ranks1 ranks2,
    crawl_files words (Text <$> site) = inr corpus
    ∧ sample_pagerank corpus DAMPING SAMPLES (λ i, Z.of_nat i * 977)%Z = Ok ranks1
    ∧ iterate_pagerank 53 corpus DAMPING = Some (Ok ranks2)
    ∧ main words ["pagerank.py"; "corpus"] example_listdir (λ i, Z.of_nat i * 977)%Z 53
      = (Heading "PageRank Results from Sampling (n = 10000)" :: report ranks1
         ++ Heading "PageRank Results from Iteration" :: report ranks2,
         Returned).
Proof.
  apply (main_reports words ["pagerank.py"; "corpus"] example_listdir
           (λ i, Z.of_nat i * 977)%Z 53 (Text <$> site) "1.html").
  - reflexivity.
  - reflexivity.
  - apply (bool_decide_unpack _). vm_compute. exact I.
  - apply (bool_decide_unpack _). vm_compute. exact I.
  - reflexivity.
  - lia.
Defined.

Lemma crawl_files_result_witness :
  (crawl_files words (Text <$> site) = inr (crawl words (file_text <$> (Text <$> site)))
   ∧ ∀ texts : gmap string string,
       (∀ name, endswith name ".html" = true →
                texts !! name = file_text <$> (Text <$> site) !! name) →
       crawl_files words (Text <$> site) = inr (crawl words texts))
  ∧ ∃ name' e',
      <["4.html" := Broken OSError]> (Text <$> site) !! name' = Some (Broken e')
      ∧ endswith name' ".html" = true
      ∧ crawl_files words (<["4.html" := Broken OSError]> (Text <$> site)) = inl e'.
Proof.
  split.
  - apply (proj1 (crawl_files_result words (Text <$> site))).
    apply (bool_decide_unpack _). vm_compute. exact I.
  - apply (proj2 (crawl_files_result words
                    (<["4.html" := Broken OSError]> (Text <$> site)))
             "4.html" OSError).
    + reflexivity.
    + reflexivity.
Defined.

Lemma main_unreadable_witness :
  ∃ name' e',
    <["4.html" := Broken OSError]> (Text <$> site) !! name' = Some (Broken e')
    ∧ endswith name' ".html" = true
    ∧ main words ["pagerank.py"; "broken"] example_listdir (λ i, Z.of_nat i * 977)%Z 53
      = ([], Failed e').
Proof.
  apply (main_unreadable words ["pagerank.py"; "broken"] example_listdir
           (λ i, Z.of_nat i * 977)%Z 53
           (<["4.html" := Broken OSError]> (Text <$> site)) "4.html" OSError).
  - reflexivity.
  - reflexivity.
  - reflexivity.
  - reflexivity.
Defined.
